(** * Registers and selection registers of cirq_ft

    A shallow embedding of [cirq_ft/infra/gate_with_registers.py]:
    [Register], [Registers], [SelectionRegister], [SelectionRegisters] and
    the default diagram labels of [GateWithRegisters], followed by the
    properties of the register bookkeeping and of the flat-index arithmetic.

    Python exceptions are results of type [result]; dictionaries are
    [gmap]s keyed by strings; Python integers are [Z]; sizes counted in
    (qu)bits are [nat]; numpy arrays carry their dtype and wrap around at
    64 bits as numpy does; doubles are the binary64 numbers of [SpecFloat].
    A call whose outcome depends on the promotion of a Python integer
    outside 64 bits against a numpy scalar has the result [Unfollowed],
    about which nothing is stated. *)

From Stdlib Require Import ZArith Lia DecimalString DecimalNat.
From Stdlib Require SpecFloat.
From stdpp Require Import gmap strings list list_numbers.

Local Open Scope Z_scope.

(** ** Exceptions and results *)

Inductive exn : Set :=
| ValueError
| AssertionError
| IndexError
| KeyError
| TypeError
| OverflowError.

(** What a call does: it returns [a], it raises [e], or it goes on in a
    part of numpy that is not followed here, where it may return or
    raise. *)
Inductive result (A : Type) : Type :=
| Ok (a : A)
| Raise (e : exn)
| Unfollowed.
Arguments Ok {A} a.
Arguments Raise {A} e.
Arguments Unfollowed {A}.

Global Instance result_ret : MRet result := fun A a => Ok a.

Global Instance result_bind : MBind result := fun A B k m =>
  match m with
  | Ok a => k a
  | Raise e => Raise e
  | Unfollowed => Unfollowed
  end.

Global Instance result_fmap : FMap result := fun A B f m =>
  match m with
  | Ok a => Ok (f a)
  | Raise e => Raise e
  | Unfollowed => Unfollowed
  end.

(** ** Python sequences *)

(** [l[lo:hi]] for bounds that are not negative: both are clamped to the
    length and the slice is empty when [hi <= lo]. *)
Definition slice {A} (l : list A) (lo hi : nat) : list A :=
  take (hi - lo)%nat (drop lo l).

(** [PySlice_AdjustIndices]: one bound of [l[start:stop:step]] brought into
    range for a sequence of length [len]. *)
Definition adjust_index (len step i : Z) : Z :=
  if i <? 0 then
    (if i + len <? 0 then (if step <? 0 then -1 else 0) else i + len)
  else
    (if len <=? i then (if step <? 0 then len - 1 else len) else i).

(** [l[start:stop:step]] with optional bounds; a zero step raises. *)
Definition slice_step {A} (l : list A) (start stop step : option Z)
  : result (list A) :=
  let len := Z.of_nat (length l) in
  let step := default 1 step in
  if step =? 0 then Raise ValueError else
  let lo := match start with
            | Some i => adjust_index len step i
            | None => if step <? 0 then len - 1 else 0
            end in
  let hi := match stop with
            | Some i => adjust_index len step i
            | None => if step <? 0 then -1 else len
            end in
  let count :=
    if step <? 0
    then (if hi <? lo then (lo - hi - 1) / (- step) + 1 else 0)
    else (if lo <? hi then (hi - lo - 1) / step + 1 else 0) in
  Ok (omap (fun k => l !! Z.to_nat (lo + Z.of_nat k * step))
           (seq 0 (Z.to_nat count))).

(** [t[i]] on a tuple: negative positions count from the end. *)
Definition tuple_index {A} (l : list A) (i : Z) : result A :=
  let len := Z.of_nat (length l) in
  let j := if i <? 0 then i + len else i in
  if (j <? 0) || (len <=? j) then Raise IndexError
  else match l !! Z.to_nat j with
       | Some x => Ok x
       | None => Raise IndexError
       end.

(** ** Register *)

(** [Register]: a frozen attrs class with two fields and no validator.
    [bitsize] is "the number of (qu)bits in the register", a natural
    number. *)
Record Register : Type := mkRegister {
  reg_name : string;
  reg_bitsize : nat
}.

(** What [Registers] reads from its members; [SelectionRegister] inherits
    both attributes from [Register]. *)
Class RegisterLike (R : Type) : Type := {
  name : R -> string;
  bitsize : R -> nat
}.

Global Instance Register_like : RegisterLike Register :=
  {| name := reg_name; bitsize := reg_bitsize |}.

(** ** Registers *)

Section Registers.
Context {R : Type} `{RegisterLike R}.

Record Registers : Type := mkRegisters {
  _registers : list R;
  _register_dict : gmap string R
}.

(** [{r.name: r for r in self._registers}]: a later register replaces an
    earlier one of the same name. *)
Definition register_dict (registers : list R) : gmap string R :=
  foldl (fun d r => <[name r := r]> d) ∅ registers.

(** [Registers.__init__] *)
Definition Registers_init (registers : list R) : result Registers :=
  let regs := registers in
  let dict := register_dict regs in
  if decide (length regs ≠ size dict) then Raise ValueError
  else Ok {| _registers := regs; _register_dict := dict |}.

(** [Registers.bitsize]: [sum(reg.bitsize for reg in self)] *)
Definition Registers_bitsize (r : Registers) : nat :=
  foldl (fun acc reg => (acc + bitsize reg)%nat) 0%nat (_registers r).

(** [__len__] and [__contains__] *)
Definition Registers_len (r : Registers) : nat := length (_registers r).

Definition Registers_contains (r : Registers) (item : string) : bool :=
  bool_decide (is_Some (_register_dict r !! item)).

(** Keys of [__getitem__]: a slice, an integer (booleans included), a
    string, or an object of any other type. *)
Inductive key : Type :=
| key_slice (start stop step : option Z)
| key_int (i : Z)
| key_str (s : string)
| key_other.

Inductive item : Type :=
| item_register (reg : R)
| item_registers (regs : Registers).

(** [Registers.__getitem__] *)
Definition Registers_getitem (r : Registers) (k : key) : result item :=
  match k with
  | key_slice start stop step =>
      regs ← slice_step (_registers r) start stop step;
      item_registers <$> Registers_init regs
  | key_int i => item_register <$> tuple_index (_registers r) i
  | key_str s =>
      match _register_dict r !! s with
      | Some reg => Ok (item_register reg)
      | None => Raise KeyError
      end
  | key_other => Raise IndexError
  end.

(** Handles ([cirq.Qid]) are opaque to the register bookkeeping. *)
Context {Qid : Type}.

(** The loop of [split_qubits], from the dictionary and [base] reached so
    far. *)
Fixpoint split_loop (regs : list R) (qubits : list Qid)
    (qubit_regs : gmap string (list Qid)) (base : nat)
  : gmap string (list Qid) :=
  match regs with
  | [] => qubit_regs
  | reg :: rest =>
      let qubit_regs :=
        <[name reg := slice qubits base (base + bitsize reg)]> qubit_regs in
      let base := (base + bitsize reg)%nat in
      split_loop rest qubits qubit_regs base
  end.

(** [Registers.split_qubits] *)
Definition split_qubits (r : Registers) (qubits : list Qid)
  : gmap string (list Qid) :=
  split_loop (_registers r) qubits ∅ 0%nat.

(** A keyword argument of [merge_qubits]: one handle or a sequence. *)
Inductive qubit_arg : Type :=
| one_qubit (q : Qid)
| qubit_seq (qs : list Qid).

(** The loop of [merge_qubits], from the list [ret] built so far. *)
Fixpoint merge_loop (regs : list R) (qubit_regs : gmap string qubit_arg)
    (ret : list Qid) : result (list Qid) :=
  match regs with
  | [] => Ok ret
  | reg :: rest =>
      match qubit_regs !! name reg with
      | None => Raise AssertionError
      | Some arg =>
          let qubits := match arg with
                        | one_qubit q => [q]
                        | qubit_seq qs => qs
                        end in
          if decide (length qubits = bitsize reg)
          then merge_loop rest qubit_regs (ret ++ qubits)
          else Raise AssertionError
      end
  end.

(** [Registers.merge_qubits], called with the entries of [qubit_regs] as
    keyword arguments: the parameters are [self, **qubit_regs], so a
    keyword named [self] collides with the receiver and the call raises
    [TypeError] before the body runs. *)
Definition merge_qubits (r : Registers)
    (qubit_regs : gmap string qubit_arg) : result (list Qid) :=
  if decide (is_Some (qubit_regs !! "self")) then Raise TypeError
  else merge_loop (_registers r) qubit_regs [].
End Registers.
Arguments Registers R : clear implicits.
Arguments item R : clear implicits.
Arguments qubit_arg Qid : clear implicits.

(** ** Named qubits *)

(** Modelled from the spec: [cirq.NamedQubit] and [cirq.NamedQubit.range]
    are not part of this file. A handle is an object with a name. The
    constructor makes a new object at every call; objects are numbered in
    the order of their construction, and the state that a constructing call
    threads is the number of objects made so far. Two handles compare equal
    (and hash alike) when their names are equal. An indexed range shares
    the register's name as a prefix, followed by the decimal index (the
    [x0], [x1] of the docstring of [GateWithRegisters]). *)
Record NamedQubit : Type := mkNamedQubit {
  qubit_id : nat;
  qubit_name : string
}.

(** Modelled from the spec: [q1 == q2], equality of handles. *)
Definition NamedQubit_eq (q1 q2 : NamedQubit) : bool :=
  bool_decide (qubit_name q1 = qubit_name q2).

(** Modelled from the spec: [cirq.NamedQubit(name)], a new object. *)
Definition NamedQubit_new (name : string) (next : nat) : NamedQubit * nat :=
  (mkNamedQubit next name, S next).

(** Modelled from the spec: the handles of the given names, constructed
    one after the other. *)
Fixpoint new_qubits (names : list string) (next : nat)
  : list NamedQubit * nat :=
  match names with
  | [] => ([], next)
  | n :: rest =>
      let (q, next) := NamedQubit_new n next in
      let (qs, next) := new_qubits rest next in
      (q :: qs, next)
  end.

Definition str_of_nat (i : nat) : string :=
  NilEmpty.string_of_uint (Nat.to_uint i).

(** Modelled from the spec: [cirq.NamedQubit.range(n, prefix=prefix)]. *)
Definition NamedQubit_range (n : nat) (prefix : string) (next : nat)
  : list NamedQubit * nat :=
  new_qubits ((fun i => prefix +:+ str_of_nat i) <$> seq 0 n) next.

Section get_named_qubits.
Context {R : Type} `{RegisterLike R}.

Definition qubits_for_reg (name : string) (bitsize : nat) (next : nat)
  : list NamedQubit * nat :=
  if decide (bitsize = 1%nat)
  then let (q, next) := NamedQubit_new name next in ([q], next)
  else NamedQubit_range bitsize name next.

(** [Registers.get_named_qubits]: the dictionary comprehension, from the
    dictionary and the number of objects reached so far. *)
Definition named_qubits_loop (regs : list R)
    (d : gmap string (list NamedQubit)) (next : nat)
  : gmap string (list NamedQubit) * nat :=
  foldl (fun st reg =>
           let (qubits, next) :=
             qubits_for_reg (name reg) (bitsize reg) st.2 in
           (<[name reg := qubits]> st.1, next))
        (d, next) regs.

Definition get_named_qubits (r : Registers R) (next : nat)
  : gmap string (list NamedQubit) * nat :=
  named_qubits_loop (_registers r) ∅ next.
End get_named_qubits.

(** ** Numbers: Python integers and numpy scalars *)

(** Doubles are IEEE 754 binary64 numbers, with the operations that
    [SpecFloat] specifies: results are rounded to the nearest double, ties
    to even. *)
Definition double : Set := SpecFloat.spec_float.

(** The double nearest to an integer, infinite beyond the largest double:
    what a C cast and Python's [float] compute. *)
Definition to_double (z : Z) : double :=
  SpecFloat.binary_normalize 53 1024 z 0 false.

Definition fmul : double -> double -> double := SpecFloat.SFmul 53 1024.
Definition fadd : double -> double -> double := SpecFloat.SFadd 53 1024.

(** The Python integers that convert to a double: [float(v)] raises
    [OverflowError] when the nearest double would be beyond the largest
    one, [2^1024 - 2^971]. *)
Definition fits_double (v : Z) : bool := Z.abs v <? 2 ^ 1024 - 2 ^ 970.

(** The values that the arithmetic of [SelectionRegisters] produces. A
    Python [int] is unbounded; a numpy [int64] or [uint64] wraps around; a
    numpy [float64] is a double. *)
Inductive number : Type :=
| py_int (z : Z)
| np_int64 (z : Z)
| np_uint64 (z : Z)
| np_float64 (f : double).

(** The integer a number of an integer type is equal to. *)
Definition value (x : number) : option Z :=
  match x with
  | py_int z | np_int64 z | np_uint64 z => Some z
  | np_float64 _ => None
  end.

(** [int(x)]: a double is truncated towards zero; an infinite one raises
    [OverflowError], and one that is not a number [ValueError]. *)
Definition int_of (x : number) : result number :=
  match x with
  | py_int z | np_int64 z | np_uint64 z => Ok (py_int z)
  | np_float64 f =>
      match f with
      | SpecFloat.S754_zero _ => Ok (py_int 0)
      | SpecFloat.S754_finite s m e =>
          let magnitude :=
            if 0 <=? e then Z.pos m * 2 ^ e else Z.pos m / 2 ^ (- e) in
          Ok (py_int (if s then - magnitude else magnitude))
      | SpecFloat.S754_infinity _ => Raise OverflowError
      | SpecFloat.S754_nan => Raise ValueError
      end
  end.

Module np.

(** Two's complement reduction to 64 bits. *)
Definition wrap64 (z : Z) : Z := (z + 2 ^ 63) mod 2 ^ 64 - 2 ^ 63.

Definition fits_int64 (z : Z) : bool := (- 2 ^ 63 <=? z) && (z <? 2 ^ 63).
Definition fits_uint64 (z : Z) : bool := (0 <=? z) && (z <? 2 ^ 64).

(** The dtypes of arrays of integers; [float64] arrays are [Doubles]. *)
Inductive dtype : Set := int64 | uint64 | object.

(** A one-dimensional array: of integers of a dtype ([object] holding
    Python integers), or of doubles. *)
Inductive ndarray : Type :=
| Array (dt : dtype) (items : list Z)
| Doubles (items : list double).

(** [np.asarray] of a sequence of Python integers, as numpy 1.x converts
    it where the C [long] has 64 bits: an empty sequence is [float64];
    integers that all fit [int64] give [int64]; integers that all need
    [uint64] give [uint64]; an integer beyond both gives [object]; a mix
    of [int64] and [uint64] entries is promoted to [float64]. *)
Definition array (xs : list Z) : ndarray :=
  match xs with
  | [] => Doubles []
  | _ =>
      if forallb fits_int64 xs then Array int64 xs
      else if negb (forallb (fun z => fits_int64 z || fits_uint64 z) xs)
      then Array object xs
      else if forallb (fun z => negb (fits_int64 z)) xs then Array uint64 xs
      else Doubles (to_double <$> xs)
  end.

(** Multiplication inside an array of the given dtype. *)
Definition mul (dt : dtype) (a b : Z) : Z :=
  match dt with
  | int64 => wrap64 (a * b)
  | uint64 => (a * b) mod 2 ^ 64
  | object => a * b
  end.

Fixpoint accumulate_from (dt : dtype) (acc : Z) (xs : list Z) : list Z :=
  match xs with
  | [] => []
  | x :: rest => let acc := mul dt acc x in acc :: accumulate_from dt acc rest
  end.

Fixpoint accumulate_doubles (acc : double) (fs : list double)
  : list double :=
  match fs with
  | [] => []
  | f :: rest => let acc := fmul acc f in acc :: accumulate_doubles acc rest
  end.

(** [np.multiply.accumulate]: running products, in the array's dtype. *)
Definition multiply_accumulate (a : ndarray) : ndarray :=
  match a with
  | Array dt [] => Array dt []
  | Array dt (x :: rest) => Array dt (x :: accumulate_from dt x rest)
  | Doubles [] => Doubles []
  | Doubles (f :: rest) => Doubles (f :: accumulate_doubles f rest)
  end.

(** [a[::-1]] *)
Definition flip (a : ndarray) : ndarray :=
  match a with
  | Array dt xs => Array dt (rev xs)
  | Doubles fs => Doubles (rev fs)
  end.

(** The dtype two arrays of integers are concatenated in; [None] stands
    for [float64], which [int64] and [uint64] are promoted to. *)
Definition promote (d1 d2 : dtype) : option dtype :=
  match d1, d2 with
  | object, _ | _, object => Some object
  | int64, int64 => Some int64
  | uint64, uint64 => Some uint64
  | _, _ => None
  end.

(** [np.append(a, values)]: both flattened and concatenated in the
    promoted dtype; integers that join doubles are converted. An [object]
    array that would hold doubles is not followed. *)
Definition append (a : ndarray) (values : list Z) : result ndarray :=
  match a, array values with
  | Array d1 xs, Array d2 ys =>
      match promote d1 d2 with
      | Some dt => Ok (Array dt (xs ++ ys))
      | None => Ok (Doubles (to_double <$> xs ++ ys))
      end
  | Array object xs, Doubles [] => Ok (Array object xs)
  | Doubles [], Array object ys => Ok (Array object ys)
  | Array object _, Doubles _ | Doubles _, Array object _ => Unfollowed
  | Array _ xs, Doubles gs => Ok (Doubles ((to_double <$> xs) ++ gs))
  | Doubles fs, Array _ ys => Ok (Doubles (fs ++ (to_double <$> ys)))
  | Doubles fs, Doubles gs => Ok (Doubles (fs ++ gs))
  end.

(** [np.product]: the product of all entries, in the array's dtype. *)
Definition product (a : ndarray) : number :=
  match a with
  | Array int64 xs => np_int64 (foldl (mul int64) 1 xs)
  | Array uint64 xs => np_uint64 (foldl (mul uint64) 1 xs)
  | Array object xs => py_int (foldl (mul object) 1 xs)
  | Doubles fs => np_float64 (foldl fmul (to_double 1) fs)
  end.

(** [a[i]] for a position that is not negative. *)
Definition getitem (a : ndarray) (i : nat) : result number :=
  match a with
  | Array dt xs =>
      match xs !! i with
      | None => Raise IndexError
      | Some x =>
          Ok match dt with
             | int64 => np_int64 x
             | uint64 => np_uint64 x
             | object => py_int x
             end
      end
  | Doubles fs =>
      match fs !! i with
      | None => Raise IndexError
      | Some f => Ok (np_float64 f)
      end
  end.

End np.

(** [v * e] for a Python integer [v] and an array element [e]. Python
    integers multiply exactly. An [int64] element takes a Python integer
    that fits 64 bits as an [int64] and wraps around. A double takes an
    integer that fits 64 bits, signed or unsigned, as a double. A larger
    integer is promoted on another path, which is not followed, except
    that it is converted to a double when it meets one, which raises
    [OverflowError] when it is too large. *)
Definition py_mul (v : Z) (e : number) : result number :=
  match e with
  | py_int s => Ok (py_int (v * s))
  | np_int64 s =>
      if np.fits_int64 v then Ok (np_int64 (np.wrap64 (v * s)))
      else Unfollowed
  | np_uint64 _ => Unfollowed
  | np_float64 f =>
      if np.fits_int64 v || np.fits_uint64 v
      then Ok (np_float64 (fmul (to_double v) f))
      else if fits_double v then Unfollowed
      else Raise OverflowError
  end.

(** [a + b], on the same terms. *)
Definition py_add (a b : number) : result number :=
  match a, b with
  | py_int x, py_int y => Ok (py_int (x + y))
  | py_int x, np_int64 y | np_int64 y, py_int x =>
      if np.fits_int64 x then Ok (np_int64 (np.wrap64 (x + y)))
      else Unfollowed
  | np_int64 x, np_int64 y => Ok (np_int64 (np.wrap64 (x + y)))
  | py_int x, np_float64 f | np_float64 f, py_int x =>
      if np.fits_int64 x || np.fits_uint64 x
      then Ok (np_float64 (fadd (to_double x) f))
      else if fits_double x then Unfollowed
      else Raise OverflowError
  | np_float64 f, np_float64 g => Ok (np_float64 (fadd f g))
  | np_int64 x, np_float64 f | np_float64 f, np_int64 x =>
      Ok (np_float64 (fadd (to_double x) f))
  | np_uint64 _, _ | _, np_uint64 _ => Unfollowed
  end.

(** ** SelectionRegister *)

Record SelectionRegister : Type := mkSelectionRegister {
  sel_name : string;
  sel_bitsize : nat;
  iteration_length : Z
}.

Global Instance SelectionRegister_like : RegisterLike SelectionRegister :=
  {| name := sel_name; bitsize := sel_bitsize |}.

(** [SelectionRegister.validate_iteration_length] *)
Definition validate_iteration_length (self_bitsize : nat) (value : Z)
  : result unit :=
  if negb ((0 <=? value) && (value <=? 2 ^ Z.of_nat self_bitsize))
  then Raise ValueError
  else Ok tt.

(** The constructor generated by attrs: it stores the three fields and runs
    the validator of [iteration_length]. *)
Definition SelectionRegister_new (name : string) (bitsize : nat)
    (iteration_length : Z) : result SelectionRegister :=
  _ ← validate_iteration_length bitsize iteration_length;
  Ok (mkSelectionRegister name bitsize iteration_length).

(** The records that are instances of the class: those the constructor
    returns. *)
Definition is_SelectionRegister (reg : SelectionRegister) : Prop :=
  SelectionRegister_new (sel_name reg) (sel_bitsize reg) (iteration_length reg)
  = Ok reg.

(** ** SelectionRegisters *)

Record SelectionRegisters : Type := mkSelectionRegisters {
  super : Registers SelectionRegister;
  iteration_lengths : list Z;
  _suffix_prod : np.ndarray
}.

(** [SelectionRegisters.__init__], from a sequence that can be iterated
    twice (a list or a tuple, as [build] and [__getitem__] pass). *)
Definition SelectionRegisters_init (registers : list SelectionRegister)
  : result SelectionRegisters :=
  super ← Registers_init registers;
  let iteration_lengths := iteration_length <$> registers in
  let _suffix_prod :=
    np.flip (np.multiply_accumulate (np.array (rev iteration_lengths))) in
  _suffix_prod ← np.append _suffix_prod [1];
  Ok {| super := super;
        iteration_lengths := iteration_lengths;
        _suffix_prod := _suffix_prod |}.

(** The [sum] over [enumerate(selection_vals)], from position [i] and the
    running [total]. *)
Fixpoint flat_idx_loop (suffix_prod : np.ndarray) (i : nat)
    (selection_vals : list Z) (total : number) : result number :=
  match selection_vals with
  | [] => Ok total
  | v :: rest =>
      e ← np.getitem suffix_prod (i + 1);
      term ← py_mul v e;
      total ← py_add total term;
      flat_idx_loop suffix_prod (S i) rest total
  end.

(** [SelectionRegisters.to_flat_idx] *)
Definition to_flat_idx (self : SelectionRegisters) (selection_vals : list Z)
  : result number :=
  if decide (length selection_vals = Registers_len (super self))
  then flat_idx_loop (_suffix_prod self) 0 selection_vals (py_int 0)
  else Raise AssertionError.

(** [SelectionRegisters.total_iteration_size] *)
Definition total_iteration_size (self : SelectionRegisters)
  : result number :=
  int_of (np.product (np.array (iteration_lengths self))).

Inductive selection_item : Type :=
| item_selection_register (reg : SelectionRegister)
| item_selection_registers (regs : SelectionRegisters).

(** [SelectionRegisters.__getitem__] *)
Definition SelectionRegisters_getitem (self : SelectionRegisters) (k : key)
  : result selection_item :=
  match k with
  | key_slice start stop step =>
      regs ← slice_step (_registers (super self)) start stop step;
      item_selection_registers <$> SelectionRegisters_init regs
  | key_int i =>
      item_selection_register <$> tuple_index (_registers (super self)) i
  | key_str s =>
      match _register_dict (super self) !! s with
      | Some reg => Ok (item_selection_register reg)
      | None => Raise KeyError
      end
  | key_other => Raise IndexError
  end.

(** ** GateWithRegisters *)

(** What the default methods read from an implementer: its [registers]
    property and the name of its class. *)
Record GateWithRegisters : Type := mkGate {
  registers : Registers Register;
  class_name : string
}.

Definition _num_qubits_ (self : GateWithRegisters) : nat :=
  Registers_bitsize (registers self).

(** [GateWithRegisters._circuit_diagram_info_]: the wire symbols handed to
    [cirq.CircuitDiagramInfo]. *)
Definition _circuit_diagram_info_ (self : GateWithRegisters)
  : result (list string) :=
  let wire_symbols :=
    foldl (fun ws reg => ws ++ replicate (bitsize reg) (name reg))
          [] (_registers (registers self)) in
  if decide (0 < length wire_symbols)%nat
  then Ok (<[0%nat := class_name self]> wire_symbols)
  else Raise IndexError.

(** The register names in declaration order, each repeated once per
    (qu)bit: the label of every flat position before the title is set. *)
Definition flat_names {R : Type} `{RegisterLike R} (regs : list R)
  : list string :=
  concat ((fun reg => replicate (bitsize reg) (name reg)) <$> regs).

(** ** Row-major flattening, as the docstring of [to_flat_idx] states it *)

(** The product of the iteration lengths, in unbounded integers. *)
Definition product_of (lens : list Z) : Z := foldr Z.mul 1 lens.

(** [suffix[i] = product(iteration_lengths[i:])], with [suffix[n] = 1]. *)
Fixpoint suffix_products (lens : list Z) : list Z :=
  match lens with
  | [] => [1]
  | _ :: rest => product_of lens :: suffix_products rest
  end.

(** [x * M * L + y * L + z]: every value times the product of the lengths
    declared after it. *)
Fixpoint row_major (lens vals : list Z) : Z :=
  match lens, vals with
  | _ :: lens, v :: vals => v * product_of lens + row_major lens vals
  | _, _ => 0
  end.

(** The tuples [(i0, ..., in-1)] with [0 <= ik < Lk], in lexicographic
    order: the nested [for] loops of the docstring. *)
Fixpoint index_tuples (lens : list Z) : list (list Z) :=
  match lens with
  | [] => [[]]
  | l :: rest => i ← seqZ 0 l; (cons i) <$> index_tuples rest
  end.

(** The integer [to_flat_idx] returns, when it returns one. *)
Definition flat_value (self : SelectionRegisters) (vals : list Z) : option Z :=
  match to_flat_idx self vals with
  | Ok x => value x
  | Raise _ | Unfollowed => None
  end.

(** Decimal digits in names. *)
Definition is_digit (c : Ascii.ascii) : bool :=
  (48 <=? Ascii.nat_of_ascii c)%nat && (Ascii.nat_of_ascii c <=? 57)%nat.

Fixpoint all_digits (s : string) : bool :=
  match s with
  | EmptyString => true
  | String c s' => is_digit c && all_digits s'
  end.

(** [b] is [a] followed by one or more decimal digits. *)
Definition digits_extend (a b : string) : Prop :=
  ∃ d : string, d ≠ "" ∧ all_digits d = true ∧ b = a +:+ d.

(** The names of the handles of a register. *)
Definition handle_names (n : string) (b : nat) : list string :=
  if decide (b = 1%nat) then [n]
  else (fun i => n +:+ str_of_nat i) <$> seq 0 b.

(** The handles a call of [get_named_qubits] returned for a register. *)
Definition handles_of {R : Type} `{RegisterLike R}
    (d : gmap string (list NamedQubit)) (reg : R) : list NamedQubit :=
  default [] (d !! name reg).

(** ** Sample inputs *)

(** The collection the constructor returns for [regs] when their names are
    all different. *)
Definition registers_of {R : Type} `{RegisterLike R} (regs : list R)
  : Registers R :=
  {| _registers := regs; _register_dict := register_dict regs |}.

(** [Registers([Register("a", 1)])] *)
Definition one_register : Registers Register :=
  registers_of [mkRegister "a" 1].

(** A gate whose only register has no (qu)bits:
    [Registers([Register("a", 0)])]. *)
Definition zero_width_gate : GateWithRegisters :=
  {| registers := registers_of [mkRegister "a" 0]; class_name := "Gate" |}.

(** [Registers([Register("x", 2), Register("x0", 1)])] *)
Definition clashing_registers : Registers Register :=
  registers_of [mkRegister "x" 2; mkRegister "x0" 1].

(** The gate of the docstring of [GateWithRegisters], with [bitsize = 2]. *)
Definition MultiTargetCSwap : GateWithRegisters :=
  {| registers :=
       registers_of [mkRegister "ctrl" 1; mkRegister "x" 2; mkRegister "y" 2];
     class_name := "MultiTargetCSwap" |}.

(** [Registers([Register("self", 1)])] *)
Definition self_registers : Registers Register :=
  registers_of [mkRegister "self" 1].

(** [Registers([Register("x", 1), Register("y", 3)])] *)
Definition xy_registers : Registers Register :=
  registers_of [mkRegister "x" 1; mkRegister "y" 3].

(** [Registers([Register("q1", 1), Register("r", 2)])] *)
Definition q1_r_registers : Registers Register :=
  registers_of [mkRegister "q1" 1; mkRegister "r" 2].

(** Three registers of 1, 32 and 32 bits with full iteration ranges, as
    [SelectionRegisters.build(a=1, b=32, c=32)] makes them. *)
Definition wide_selection : list SelectionRegister :=
  [mkSelectionRegister "a" 1 2;
   mkSelectionRegister "b" 32 (2 ^ 32);
   mkSelectionRegister "c" 32 (2 ^ 32)].

(** Two registers of 32 bits with full iteration ranges, as
    [SelectionRegisters.build(b=32, c=32)] makes them. *)
Definition square_selection : list SelectionRegister :=
  [mkSelectionRegister "b" 32 (2 ^ 32);
   mkSelectionRegister "c" 32 (2 ^ 32)].


(** Iteration lengths [(10, 20)] on registers of 4 and 5 bits. *)
Definition xy_selection : list SelectionRegister :=
  [mkSelectionRegister "x" 4 10; mkSelectionRegister "y" 5 20].

(** ** Keyword arguments and builders *)

(** The handles a keyword argument of [merge_qubits] stands for:
    [[qubits] if isinstance(qubits, cirq.Qid) else qubits]. *)
Definition handles {Qid : Type} (arg : qubit_arg Qid) : list Qid :=
  match arg with
  | one_qubit q => [q]
  | qubit_seq qs => qs
  end.

(** The handles supplied under a name, none when the name is missing. *)
Definition handles_at {Qid : Type} (qubit_regs : gmap string (qubit_arg Qid))
    (n : string) : list Qid :=
  match qubit_regs !! n with
  | Some arg => handles arg
  | None => []
  end.

(** What the two assertions of [merge_qubits] ask of a register. *)
Definition supplied {R : Type} `{RegisterLike R} {Qid : Type}
    (qubit_regs : gmap string (qubit_arg Qid)) (reg : R) : Prop :=
  is_Some (qubit_regs !! name reg)
  ∧ length (handles_at qubit_regs (name reg)) = bitsize reg.

Global Instance supplied_dec {R : Type} `{RegisterLike R} {Qid : Type}
    (qubit_regs : gmap string (qubit_arg Qid)) (reg : R)
  : Decision (supplied qubit_regs reg).
Proof. unfold supplied. apply _. Defined.

(** Keyword arguments in the order of the call. Python refuses a call that
    repeats a keyword, or that passes by keyword the parameter [reserved]
    which the call already binds ([cls] of a class method). *)
Definition keywords {V : Type} (reserved : string) (kwargs : list (string * V))
  : result (list (string * V)) :=
  if decide (NoDup kwargs.*1 ∧ reserved ∉ kwargs.*1) then Ok kwargs
  else Raise TypeError.

(** [Registers.build] *)
Definition Registers_build (kwargs : list (string * nat))
  : result (Registers Register) :=
  registers ← keywords "cls" kwargs;
  Registers_init ((fun kv => mkRegister kv.1 kv.2) <$> registers).

(** A value of [SelectionRegisters.build]: a size, or a pair of a size and
    an iteration length. *)
Inductive size_arg : Type :=
| size_only (v : nat)
| size_and_length (v0 : nat) (v1 : Z).

(** [v if isinstance(v, tuple) else (v, 2**v)] *)
Definition size_pair (v : size_arg) : nat * Z :=
  match v with
  | size_only v => (v, 2 ^ Z.of_nat v)
  | size_and_length v0 v1 => (v0, v1)
  end.

(** The list comprehension of [SelectionRegisters.build]: the registers
    are constructed in order, and the first refused one ends it. *)
Fixpoint new_selection_registers (reg_dict : list (string * (nat * Z)))
  : result (list SelectionRegister) :=
  match reg_dict with
  | [] => Ok []
  | kv :: rest =>
      reg ← SelectionRegister_new kv.1 kv.2.1 kv.2.2;
      regs ← new_selection_registers rest;
      Ok (reg :: regs)
  end.

(** [SelectionRegisters.build] *)
Definition SelectionRegisters_build (kwargs : list (string * size_arg))
  : result SelectionRegisters :=
  registers ← keywords "cls" kwargs;
  let reg_dict := (fun kv => (kv.1, size_pair kv.2)) <$> registers in
  regs ← new_selection_registers reg_dict;
  SelectionRegisters_init regs.

(** The table that [SelectionRegisters.__init__] stores for the given
    iteration lengths; [np.append] is followed on the value [[1]]. *)
Definition suffix_table (lens : list Z) : np.ndarray :=
  match np.append (np.flip (np.multiply_accumulate (np.array (rev lens))))
          [1] with
  | Ok table => table
  | Raise _ | Unfollowed => np.Doubles []
  end.



(** [one_qubit] for [ctrl], sequences for [x] and [y], and a name no
    register has. *)
Definition cswap_arguments : gmap string (qubit_arg string) :=
  <["ctrl" := one_qubit "c"]>
    (<["x" := qubit_seq ["x0"; "x1"]]>
       (<["y" := qubit_seq ["y0"; "y1"]]>
          (<["spare" := qubit_seq ["s"]]> ∅))).

(** [Registers.build(ctrl=1, x=2, y=2)] and
    [SelectionRegisters.build(p=3, q=(4, 10))] *)
Definition cswap_keywords : list (string * nat) :=
  [("ctrl", 1%nat); ("x", 2%nat); ("y", 2%nat)].

Definition selection_keywords : list (string * size_arg) :=
  [("p", size_only 3); ("q", size_and_length 4 10)].

(** The condition of the validator on a pair of size and length. *)
Definition valid_pair (kv : string * (nat * Z)) : Prop :=
  0 <= kv.2.2 <= 2 ^ Z.of_nat kv.2.1.

Global Instance valid_pair_dec (kv : string * (nat * Z))
  : Decision (valid_pair kv).
Proof. unfold valid_pair. apply _. Defined.

(** * Properties *)

(** ** Unique names *)

Lemma size_list_to_set_le (l : list string) :
  (size (list_to_set l : gset string) <= length l)%nat.
Proof.
  induction l as [|x l IH].
  - rewrite list_to_set_nil, size_empty. done.
  - rewrite list_to_set_cons, size_union_alt, size_singleton.
    assert (size (list_to_set l ∖ {[x]} : gset string)
            <= size (list_to_set l : gset string))%nat as Hdiff
      by (apply subseteq_size, subseteq_difference_l; reflexivity).
    simpl. lia.
Qed.

Lemma size_list_to_set_NoDup (l : list string) :
  size (list_to_set l : gset string) = length l ↔ NoDup l.
Proof.
  split; [|apply size_list_to_set].
  induction l as [|x l IH]; intros Hsize; [constructor|].
  pose proof (size_list_to_set_le l) as Hle.
  rewrite list_to_set_cons in Hsize. simpl in Hsize.
  destruct (decide (x ∈ l)) as [Hin|Hnotin].
  - assert ({[x]} ∪ list_to_set l = (list_to_set l : gset string)) as Heq.
    { apply subseteq_union_1_L, singleton_subseteq_l.
      by apply elem_of_list_to_set. }
    rewrite Heq in Hsize. lia.
  - constructor; [done|]. apply IH.
    rewrite size_union, size_singleton in Hsize; [lia|].
    apply disjoint_singleton_l. by rewrite elem_of_list_to_set.
Qed.

Section unique_names.
Context {R : Type} `{RegisterLike R}.

Lemma register_dict_dom_from (regs : list R) (d : gmap string R) :
  dom (foldl (fun d r => <[name r := r]> d) d regs)
  = dom d ∪ list_to_set (name <$> regs).
Proof.
  revert d. induction regs as [|reg regs IH]; intros d.
  - simpl. by rewrite (right_id_L ∅ (∪)).
  - rewrite fmap_cons, list_to_set_cons. simpl. rewrite IH, dom_insert_L.
    by rewrite (comm_L (∪) {[name reg]}), (assoc_L (∪)).
Qed.

Lemma register_dict_dom (regs : list R) :
  dom (register_dict regs) = list_to_set (name <$> regs).
Proof.
  unfold register_dict. rewrite register_dict_dom_from, dom_empty_L.
  by rewrite (left_id_L ∅ (∪)).
Qed.

Lemma register_dict_size (regs : list R) :
  length regs = size (register_dict regs) ↔ NoDup (name <$> regs).
Proof.
  rewrite <- size_dom, register_dict_dom, <- size_list_to_set_NoDup.
  rewrite length_fmap. split; congruence.
Qed.

Lemma Registers_init_spec (regs : list R) :
  Registers_init regs
  = if bool_decide (NoDup (name <$> regs))
    then Ok {| _registers := regs; _register_dict := register_dict regs |}
    else Raise ValueError.
Proof.
  unfold Registers_init. pose proof (register_dict_size regs) as Hsize.
  case_bool_decide; case_decide; tauto.
Qed.

Lemma Registers_init_Ok (regs : list R) (r : Registers R) :
  Registers_init regs = Ok r →
  NoDup (name <$> regs) ∧ _registers r = regs
  ∧ _register_dict r = register_dict regs.
Proof.
  rewrite Registers_init_spec. case_bool_decide; [|done].
  intros [= <-]. done.
Qed.
End unique_names.

Lemma append_one (a : np.ndarray) :
  ∃ table : np.ndarray, np.append a [1] = Ok table.
Proof.
  destruct a as [dt xs|fs]; [destruct dt|destruct fs]; by eexists.
Qed.

Lemma append_suffix_table (lens : list Z) :
  np.append (np.flip (np.multiply_accumulate (np.array (rev lens)))) [1]
  = Ok (suffix_table lens).
Proof.
  unfold suffix_table.
  by destruct (append_one
                 (np.flip (np.multiply_accumulate (np.array (rev lens)))))
    as [table ->].
Qed.

Lemma SelectionRegisters_init_spec (regs : list SelectionRegister) :
  SelectionRegisters_init regs
  = if bool_decide (NoDup (name <$> regs))
    then Ok {| super := registers_of regs;
               iteration_lengths := iteration_length <$> regs;
               _suffix_prod := suffix_table (iteration_length <$> regs) |}
    else Raise ValueError.
Proof.
  unfold SelectionRegisters_init. rewrite Registers_init_spec.
  case_bool_decide; [|done]. simpl. by rewrite append_suffix_table.
Qed.

Lemma SelectionRegisters_init_Ok (regs : list SelectionRegister)
    (self : SelectionRegisters) :
  SelectionRegisters_init regs = Ok self →
  NoDup (name <$> regs)
  ∧ _registers (super self) = regs
  ∧ iteration_lengths self = iteration_length <$> regs
  ∧ _suffix_prod self = suffix_table (iteration_length <$> regs).
Proof.
  rewrite SelectionRegisters_init_spec. case_bool_decide; [|done].
  by intros [= <-].
Qed.

(** C3: building a [Registers] or a [SelectionRegisters] in which two
    members share a name raises [ValueError]; with names that are all
    different the construction succeeds and keeps the registers in the
    order given. *)
Theorem construction_requires_unique_names :
  (∀ (R : Type) (HR : RegisterLike R) (regs : list R),
     Registers_init regs
     = if bool_decide (NoDup (name <$> regs))
       then Ok {| _registers := regs; _register_dict := register_dict regs |}
       else Raise ValueError)
  ∧ (∀ regs : list SelectionRegister,
       if bool_decide (NoDup (name <$> regs))
       then ∃ self, SelectionRegisters_init regs = Ok self
                    ∧ _registers (super self) = regs
       else SelectionRegisters_init regs = Raise ValueError).
Proof.
  split.
  - intros R HR regs. apply Registers_init_spec.
  - intros regs. rewrite SelectionRegisters_init_spec.
    case_bool_decide; simpl; eauto.
Qed.

(** ** Validation of the iteration length *)

Lemma SelectionRegister_new_spec (n : string) (b : nat) (v : Z) :
  SelectionRegister_new n b v
  = if bool_decide (0 <= v <= 2 ^ Z.of_nat b)
    then Ok (mkSelectionRegister n b v) else Raise ValueError.
Proof.
  unfold SelectionRegister_new, validate_iteration_length.
  destruct (0 <=? v) eqn:Hlo; destruct (v <=? 2 ^ Z.of_nat b) eqn:Hhi;
    simpl; case_bool_decide as Hv; try done;
    rewrite ?Z.leb_le, ?Z.leb_gt in Hlo, Hhi; lia.
Qed.

Lemma is_SelectionRegister_range (reg : SelectionRegister) :
  is_SelectionRegister reg ↔
  0 <= iteration_length reg <= 2 ^ Z.of_nat (sel_bitsize reg).
Proof.
  unfold is_SelectionRegister. rewrite SelectionRegister_new_spec.
  destruct reg as [n b v]. simpl. case_bool_decide as Hv; split; intros; done.
Qed.

(** C4: constructing a [SelectionRegister] raises exactly when the
    iteration length is outside [0, 2^bitsize]; for every bitsize [b], the
    length [2^b + 1] is refused while [0] and [2^b] are accepted. *)
Theorem iteration_length_range (n : string) (b : nat) (v : Z) :
  SelectionRegister_new n b v
  = (if bool_decide (0 <= v <= 2 ^ Z.of_nat b)
     then Ok (mkSelectionRegister n b v) else Raise ValueError)
  ∧ SelectionRegister_new n b (2 ^ Z.of_nat b + 1) = Raise ValueError
  ∧ SelectionRegister_new n b 0 = Ok (mkSelectionRegister n b 0)
  ∧ SelectionRegister_new n b (2 ^ Z.of_nat b)
    = Ok (mkSelectionRegister n b (2 ^ Z.of_nat b)).
Proof.
  assert (0 <= 2 ^ Z.of_nat b) as Hpow by (apply Z.pow_nonneg; lia).
  repeat split; rewrite SelectionRegister_new_spec;
    case_bool_decide; try done; lia.
Qed.

(** ** Unsupported keys *)

(** C7, as stated, fails: on a collection of one register a key that is neither
    an integer, a string nor a slice raises [IndexError], which is not a
    type error. *)
Lemma unsupported_key_is_not_TypeError :
  Registers_init [mkRegister "a" 1] = Ok one_register
  ∧ Registers_getitem one_register key_other = Raise IndexError
  ∧ Registers_getitem one_register key_other ≠ Raise TypeError.
Proof. split; [by vm_compute|]. split; [reflexivity|discriminate]. Qed.

(** C7, amended: indexing a [Registers] or a [SelectionRegisters] with a
    key that is neither an integer position, a name nor a slice raises
    [IndexError], the error of an out-of-range position, for every
    collection. *)
Theorem unsupported_key_raises_IndexError :
  (∀ (R : Type) (HR : RegisterLike R) (r : Registers R),
     Registers_getitem r key_other = Raise IndexError
     ∧ Registers_getitem r key_other
       = Registers_getitem r (key_int (Z.of_nat (length (_registers r)))))
  ∧ (∀ self : SelectionRegisters,
       SelectionRegisters_getitem self key_other = Raise IndexError
       ∧ SelectionRegisters_getitem self key_other
         = SelectionRegisters_getitem self
             (key_int (Z.of_nat (length (_registers (super self)))))).
Proof.
  assert (∀ A (l : list A),
            tuple_index l (Z.of_nat (length l)) = Raise IndexError) as Hidx.
  { intros A l. unfold tuple_index.
    destruct (Z.of_nat (length l) <? 0) eqn:Hneg; [apply Z.ltb_lt in Hneg; lia|].
    rewrite Hneg. simpl. by rewrite Z.leb_refl. }
  split; intros; (split; [reflexivity|]); simpl; by rewrite Hidx.
Qed.

(** ** The empty selection *)

(** C10: a [SelectionRegisters] built from no register is accepted; on it
    [to_flat_idx()] returns 0 and [total_iteration_size] returns 1. *)
Theorem empty_selection_registers :
  ∃ self : SelectionRegisters,
    SelectionRegisters_init [] = Ok self
    ∧ to_flat_idx self [] = Ok (py_int 0)
    ∧ total_iteration_size self = Ok (py_int 1).
Proof. eexists. split; [reflexivity|]. split; reflexivity. Qed.

(** ** Diagram labels *)

Section flat_positions.
Context {R : Type} `{RegisterLike R}.

Lemma bitsize_sum_from (regs : list R) (a : nat) :
  foldl (fun acc reg => (acc + bitsize reg)%nat) a regs
  = (a + sum_list (bitsize <$> regs))%nat.
Proof.
  revert a. induction regs as [|reg regs IH]; intros a; simpl; [lia|].
  rewrite IH. symmetry. apply Nat.add_assoc.
Qed.

Lemma Registers_bitsize_sum (r : Registers R) :
  Registers_bitsize r = sum_list (bitsize <$> _registers r).
Proof. unfold Registers_bitsize. by rewrite bitsize_sum_from. Qed.

Lemma wire_symbols_from (regs : list R) (ws : list string) :
  foldl (fun ws reg => ws ++ replicate (bitsize reg) (name reg)) ws regs
  = ws ++ flat_names regs.
Proof.
  revert ws. induction regs as [|reg regs IH]; intros ws; simpl.
  - by rewrite app_nil_r.
  - rewrite IH. unfold flat_names. simpl. by rewrite (assoc_L (++)).
Qed.

Lemma length_flat_names (regs : list R) :
  length (flat_names regs) = sum_list (bitsize <$> regs).
Proof.
  induction regs as [|reg regs IH]; [done|].
  change (flat_names (reg :: regs))
    with (replicate (bitsize reg) (name reg) ++ flat_names regs).
  rewrite length_app, length_replicate, IH. done.
Qed.
End flat_positions.

(** C8, as stated, fails: the gate whose only register has bitsize 0 has a
    register collection that is not empty, and the label derivation raises
    [IndexError] on it. *)
Lemma nonempty_collection_without_labels :
  Registers_init [mkRegister "a" 0] = Ok (registers zero_width_gate)
  ∧ _registers (registers zero_width_gate) ≠ []
  ∧ _circuit_diagram_info_ zero_width_gate = Raise IndexError.
Proof. split; [by vm_compute|]. split; [discriminate|reflexivity]. Qed.

(** C8, amended: for every gate whose registers hold at least one (qu)bit
    in total, the default derivation produces exactly [registers.bitsize]
    labels: for each register in declaration order its name repeated
    bitsize times, except that the label at flat position 0 is the name of
    the gate's class. *)
Theorem diagram_labels (g : GateWithRegisters) :
  (0 < Registers_bitsize (registers g))%nat →
  ∃ labels : list string,
    _circuit_diagram_info_ g = Ok labels
    ∧ length labels = Registers_bitsize (registers g)
    ∧ labels = class_name g :: drop 1 (flat_names (_registers (registers g))).
Proof.
  intros Hpos. unfold _circuit_diagram_info_.
  rewrite wire_symbols_from, app_nil_l.
  pose proof (length_flat_names (_registers (registers g))) as Hlen.
  rewrite <- Registers_bitsize_sum in Hlen.
  destruct (flat_names (_registers (registers g))) as [|l ls] eqn:Hflat;
    simpl in Hlen; [lia|].
  case_decide as Hws; [|simpl in Hws; lia].
  eexists. split; [reflexivity|]. simpl. by rewrite drop_0.
Qed.

Lemma diagram_labels_witness :
  (0 < Registers_bitsize (registers MultiTargetCSwap))%nat
  ∧ ∃ labels : list string,
      _circuit_diagram_info_ MultiTargetCSwap = Ok labels
      ∧ length labels = Registers_bitsize (registers MultiTargetCSwap)
      ∧ labels = class_name MultiTargetCSwap
                 :: drop 1 (flat_names (_registers (registers MultiTargetCSwap))).
Proof.
  split; [vm_compute; lia|].
  apply (diagram_labels MultiTargetCSwap). vm_compute. lia.
Defined.

(** ** Splitting and merging handles *)

Section split_merge.
Context {R : Type} `{RegisterLike R} {Qid : Type}.
Implicit Types (regs : list R) (qs ret : list Qid) (base : nat).
Implicit Types (m : gmap string (list Qid)).

Lemma length_slice qs lo hi :
  length (slice qs lo hi) = ((hi - lo) `min` (length qs - lo))%nat.
Proof. unfold slice. by rewrite length_take, length_drop. Qed.

Lemma slice_app qs lo n k :
  slice qs lo (lo + n) ++ slice qs (lo + n) (lo + n + k)
  = slice qs lo (lo + (n + k)).
Proof.
  unfold slice.
  replace (lo + n - lo)%nat with n by lia.
  replace (lo + n + k - (lo + n))%nat with k by lia.
  replace (lo + (n + k) - lo)%nat with (n + k)%nat by lia.
  rewrite <- (drop_drop qs n lo). apply take_take_drop.
Qed.

Lemma split_loop_lookup_other regs qs m base (n : string) :
  n ∉ name <$> regs →
  split_loop regs qs m base !! n = m !! n.
Proof.
  revert m base. induction regs as [|reg regs IH]; intros m base Hn;
    [done|].
  rewrite fmap_cons, not_elem_of_cons in Hn. destruct Hn as [Hne Hn].
  simpl. rewrite IH by done. by rewrite lookup_insert_ne.
Qed.

Lemma split_loop_dom regs qs m base :
  dom (split_loop regs qs m base) = dom m ∪ list_to_set (name <$> regs).
Proof.
  revert m base. induction regs as [|reg regs IH]; intros m base.
  - simpl. by rewrite (right_id_L ∅ (∪)).
  - rewrite fmap_cons, list_to_set_cons. simpl. rewrite IH, dom_insert_L.
    by rewrite (comm_L (∪) {[name reg]}), (assoc_L (∪)).
Qed.

(** Each register receives the handles that start where the previous
    register stopped. *)
Lemma split_loop_lookup regs qs m base (i : nat) (reg : R) :
  NoDup (name <$> regs) →
  regs !! i = Some reg →
  split_loop regs qs m base !! name reg
  = Some (slice qs (base + sum_list (bitsize <$> take i regs))
                   (base + sum_list (bitsize <$> take i regs) + bitsize reg)).
Proof.
  revert m base i.
  induction regs as [|reg0 regs IH]; intros m base i Hnodup Hi; [done|].
  rewrite fmap_cons in Hnodup. apply NoDup_cons in Hnodup as [Hfresh Hnodup].
  destruct i as [|i]; simpl in Hi.
  - injection Hi as ->. simpl.
    rewrite split_loop_lookup_other, lookup_insert_eq by done.
    by rewrite Nat.add_0_r.
  - simpl split_loop. rewrite (IH _ _ i) by done.
    change (sum_list (bitsize <$> take (S i) (reg0 :: regs)))
      with (bitsize reg0 + sum_list (bitsize <$> take i regs))%nat.
    by rewrite !(assoc_L Nat.add).
Qed.

Lemma merge_split_loop regs qs m base ret :
  NoDup (name <$> regs) →
  (base + sum_list (bitsize <$> regs) <= length qs)%nat →
  merge_loop regs (qubit_seq <$> split_loop regs qs m base) ret
  = Ok (ret ++ slice qs base (base + sum_list (bitsize <$> regs))).
Proof.
  revert m base ret.
  induction regs as [|reg regs IH]; intros m base ret Hnodup Hlen.
  - simpl. unfold slice. replace (base + 0 - base)%nat with 0%nat by lia.
    by rewrite take_0, app_nil_r.
  - rewrite fmap_cons in Hnodup.
    apply NoDup_cons in Hnodup as [Hfresh Hnodup].
    change (sum_list (bitsize <$> reg :: regs))
      with (bitsize reg + sum_list (bitsize <$> regs))%nat in Hlen.
    change (sum_list (bitsize <$> reg :: regs))
      with (bitsize reg + sum_list (bitsize <$> regs))%nat.
    simpl merge_loop. simpl split_loop.
    rewrite lookup_fmap, split_loop_lookup_other, lookup_insert_eq by done.
    simpl. rewrite decide_True by (rewrite length_slice; lia).
    rewrite IH by (done || lia).
    by rewrite <- (assoc_L (++)), slice_app.
Qed.
End split_merge.

(** C1, as stated, fails: on the collection whose only register is named
    [self], the mapping that [split_qubits] returns has the key [self], and
    passing it to [merge_qubits] as keyword arguments raises [TypeError]. *)
Lemma roundtrip_fails_on_self :
  Registers_init [mkRegister "self" 1] = Ok self_registers
  ∧ length ["q"] = Registers_bitsize self_registers
  ∧ split_qubits self_registers ["q"] !! "self" = Some ["q"]
  ∧ merge_qubits self_registers (qubit_seq <$> split_qubits self_registers ["q"])
    = Raise TypeError.
Proof. repeat split; by vm_compute. Qed.

(** C1, amended: for every [Registers] instance none of whose registers is
    named [self], and every flat sequence of handles whose length is the
    collection's [bitsize], splitting the sequence and merging the
    resulting mapping gives the sequence back. *)
Theorem merge_split_roundtrip {R : Type} `{RegisterLike R} {Qid : Type}
    (regs : list R) (r : Registers R) (qs : list Qid) :
  Registers_init regs = Ok r →
  "self" ∉ name <$> regs →
  length qs = Registers_bitsize r →
  merge_qubits r (qubit_seq <$> split_qubits r qs) = Ok qs.
Proof.
  intros (Hnodup & Hregs & _)%Registers_init_Ok Hself Hlen.
  rewrite Registers_bitsize_sum, Hregs in Hlen.
  unfold merge_qubits, split_qubits. rewrite Hregs.
  rewrite decide_False.
  - rewrite merge_split_loop by (done || simpl; lia).
    unfold slice. simpl. rewrite Nat.sub_0_r, drop_0, take_ge by lia. done.
  - rewrite lookup_fmap, split_loop_lookup_other, lookup_empty by done.
    simpl. apply is_Some_None.
Qed.

Lemma merge_split_roundtrip_witness :
  merge_qubits (registers MultiTargetCSwap)
    (qubit_seq <$> split_qubits (registers MultiTargetCSwap)
                     ["c"; "x0"; "x1"; "y0"; "y1"])
  = Ok ["c"; "x0"; "x1"; "y0"; "y1"].
Proof.
  apply (merge_split_roundtrip
           [mkRegister "ctrl" 1; mkRegister "x" 2; mkRegister "y" 2]).
  - by vm_compute.
  - apply (bool_decide_unpack _). by vm_compute.
  - reflexivity.
Defined.

(** C5: [split_qubits] returns a mapping for every sequence of handles,
    whatever its length: every register receives the handles from its
    offset on, at most [bitsize] of them, so that on a sequence that is too
    short the trailing registers receive truncated, possibly empty,
    sub-sequences. *)
Theorem split_qubits_truncates {R : Type} `{RegisterLike R} {Qid : Type}
    (regs : list R) (r : Registers R) (qs : list Qid) :
  Registers_init regs = Ok r →
  dom (split_qubits r qs) = list_to_set (name <$> regs)
  ∧ ∀ (i : nat) (reg : R),
      regs !! i = Some reg →
      let base := sum_list (bitsize <$> take i regs) in
      ∃ part : list Qid,
        split_qubits r qs !! name reg = Some part
        ∧ part = take (bitsize reg) (drop base qs)
        ∧ length part = (bitsize reg `min` (length qs - base))%nat.
Proof.
  intros (Hnodup & Hregs & _)%Registers_init_Ok.
  unfold split_qubits. rewrite Hregs. split.
  - by rewrite split_loop_dom, dom_empty_L, (left_id_L ∅ (∪)).
  - intros i reg Hi. cbv zeta. eexists. split.
    + by apply split_loop_lookup.
    + unfold slice. simpl.
      set (base := sum_list (bitsize <$> take i regs)).
      replace (base + bitsize reg - base)%nat with (bitsize reg) by lia.
      split; [done|]. by rewrite length_take, length_drop.
Qed.

Lemma split_qubits_truncates_witness :
  dom (split_qubits (registers MultiTargetCSwap) ["c"; "x0"])
  = list_to_set (name <$> _registers (registers MultiTargetCSwap))
  ∧ ∀ (i : nat) (reg : Register),
      _registers (registers MultiTargetCSwap) !! i = Some reg →
      let base :=
        sum_list (bitsize <$> take i (_registers (registers MultiTargetCSwap))) in
      ∃ part : list string,
        split_qubits (registers MultiTargetCSwap) ["c"; "x0"] !! name reg
        = Some part
        ∧ part = take (bitsize reg) (drop base ["c"; "x0"])
        ∧ length part = (bitsize reg `min` (length ["c"; "x0"] - base))%nat.
Proof.
  apply (split_qubits_truncates
           [mkRegister "ctrl" 1; mkRegister "x" 2; mkRegister "y" 2]).
  by vm_compute.
Defined.

(** ** Named handles *)

Lemma str_of_nat_inj (i j : nat) : str_of_nat i = str_of_nat j → i = j.
Proof.
  unfold str_of_nat. intros Heq. apply Unsigned.to_uint_inj.
  assert (Some (Nat.to_uint i) = Some (Nat.to_uint j)) as Hsome
    by (rewrite <- !NilEmpty.usu; by rewrite Heq).
  by injection Hsome.
Qed.

Lemma all_digits_string_of_uint (d : Decimal.uint) :
  all_digits (NilEmpty.string_of_uint d) = true.
Proof. induction d; simpl; done. Qed.

Lemma str_of_nat_digits (i : nat) :
  all_digits (str_of_nat i) = true ∧ str_of_nat i ≠ "".
Proof.
  split; [apply all_digits_string_of_uint|].
  unfold str_of_nat. intros Hempty.
  assert (Nat.to_uint i = Decimal.Nil) as Hnil.
  { pose proof (NilEmpty.usu (Nat.to_uint i)) as Husu.
    rewrite Hempty in Husu. simpl in Husu. by injection Husu. }
  pose proof (Unsigned.of_to i) as Hi. rewrite Hnil in Hi. simpl in Hi.
  subst i. discriminate Hnil.
Qed.

Lemma all_digits_app (a d : string) :
  all_digits (a +:+ d) = all_digits a && all_digits d.
Proof.
  induction a as [|c a IH]; simpl; [done|]. by rewrite IH, andb_assoc.
Qed.

(** Two names followed by digits that give the same string: the names are
    equal, or one is the other followed by digits. *)
Lemma digit_suffix_clash (a b s1 s2 : string) :
  all_digits s1 = true → all_digits s2 = true →
  a +:+ s1 = b +:+ s2 →
  a = b ∨ digits_extend a b ∨ digits_extend b a.
Proof.
  revert b. induction a as [|c a IH]; intros b Hs1 Hs2 Heq.
  - destruct b as [|c b]; [by left|]. right. left.
    change (s1 = String c b +:+ s2) in Heq. subst s1.
    rewrite (all_digits_app (String c b) s2) in Hs1.
    apply andb_true_iff in Hs1 as [Hb _].
    by exists (String c b).
  - destruct b as [|c' b].
    + right. right.
      change (String c a +:+ s1 = s2) in Heq. subst s2.
      rewrite (all_digits_app (String c a) s1) in Hs2.
      apply andb_true_iff in Hs2 as [Ha _].
      by exists (String c a).
    + change (String c (a +:+ s1) = String c' (b +:+ s2)) in Heq.
      injection Heq as -> Heq.
      destruct (IH b Hs1 Hs2 Heq)
        as [->|[(d & Hne & Hd & ->)|(d & Hne & Hd & ->)]].
      * by left.
      * right. left. by exists d.
      * right. right. by exists d.
Qed.

Lemma NoDup_fmap_elem_inj {A B : Type} (f : A → B) (l : list A) (x y : A) :
  NoDup (f <$> l) → x ∈ l → y ∈ l → f x = f y → x = y.
Proof.
  induction l as [|z l IH]; intros Hnodup Hx Hy Heq.
  - by apply elem_of_nil in Hx.
  - rewrite fmap_cons in Hnodup. apply NoDup_cons in Hnodup as [Hz Hnodup].
    apply elem_of_cons in Hx as [->|Hx]; apply elem_of_cons in Hy as [->|Hy].
    + done.
    + exfalso. apply Hz. rewrite Heq. by apply list_elem_of_fmap_2.
    + exfalso. apply Hz. rewrite <- Heq. by apply list_elem_of_fmap_2.
    + by apply IH.
Qed.

Lemma elem_of_concat_2 {A : Type} (ls : list (list A)) (l : list A)
    (x : A) :
  l ∈ ls → x ∈ l → x ∈ concat ls.
Proof.
  induction ls as [|l0 ls IH]; intros Hl Hx.
  - by apply elem_of_nil in Hl.
  - simpl. apply elem_of_app.
    apply elem_of_cons in Hl as [->|Hl]; [by left|right; by apply IH].
Qed.

(** The objects a comprehension constructs are numbered from [next] on,
    in the order of the names. *)
Lemma new_qubits_spec (names : list string) (next : nat) :
  new_qubits names next
  = (imap (fun i n => mkNamedQubit (next + i) n) names,
     (next + length names)%nat).
Proof.
  revert next. induction names as [|n names IH]; intros next; simpl.
  - by rewrite Nat.add_0_r.
  - rewrite IH. rewrite Nat.add_0_r. f_equal; [|lia]. f_equal.
    apply imap_ext. intros i s _. simpl. f_equal. lia.
Qed.

Lemma qubit_name_imap (next : nat) (names : list string) :
  qubit_name <$> imap (fun i n => mkNamedQubit (next + i) n) names = names.
Proof.
  revert next. induction names as [|n names IH]; intros next; [done|].
  simpl. f_equal. rewrite <- (IH (S next)) at 2. f_equal.
  apply imap_ext. intros i s _. simpl. f_equal. lia.
Qed.

Lemma qubit_id_imap (next : nat) (names : list string) :
  qubit_id <$> imap (fun i n => mkNamedQubit (next + i) n) names
  = seq next (length names).
Proof.
  revert next. induction names as [|n names IH]; intros next; [done|].
  simpl. rewrite Nat.add_0_r. f_equal. rewrite <- (IH (S next)). f_equal.
  apply imap_ext. intros i s _. simpl. f_equal. lia.
Qed.

Lemma length_handle_names (n : string) (b : nat) :
  length (handle_names n b) = b.
Proof.
  unfold handle_names. case_decide as Hb.
  - by rewrite Hb.
  - by rewrite length_fmap, length_seq.
Qed.

Lemma NoDup_handle_names (n : string) (b : nat) : NoDup (handle_names n b).
Proof.
  unfold handle_names. case_decide as Hb.
  - apply NoDup_singleton.
  - apply NoDup_fmap_2; [|apply NoDup_seq].
    intros i j Heq. apply str_of_nat_inj.
    by apply (inj (String.app n)).
Qed.

(** A handle name is the register's name, followed by an index unless the
    register has one (qu)bit. *)
Lemma handle_names_digits (n : string) (b : nat) (s : string) :
  s ∈ handle_names n b → ∃ d : string, all_digits d = true ∧ s = n +:+ d.
Proof.
  unfold handle_names. case_decide as Hb.
  - intros ->%list_elem_of_singleton. exists "". split; [done|].
    clear. induction n as [|c n IH]; [done|].
    change (String c n = String c (n +:+ "")). by f_equal.
  - intros (i & -> & _)%list_elem_of_fmap. exists (str_of_nat i).
    split; [apply str_of_nat_digits|done].
Qed.

Lemma handle_names_clash (n1 n2 : string) (b1 b2 : nat) (s : string) :
  s ∈ handle_names n1 b1 → s ∈ handle_names n2 b2 →
  n1 = n2 ∨ digits_extend n1 n2 ∨ digits_extend n2 n1.
Proof.
  intros (d1 & Hd1 & ->)%handle_names_digits.
  intros (d2 & Hd2 & Heq)%handle_names_digits.
  by apply (digit_suffix_clash n1 n2 d1 d2).
Qed.

Lemma qubits_for_reg_spec (n : string) (b next : nat) :
  qubits_for_reg n b next
  = (imap (fun i s => mkNamedQubit (next + i) s) (handle_names n b),
     (next + b)%nat).
Proof.
  unfold qubits_for_reg, handle_names, NamedQubit_range.
  case_decide as Hb.
  - subst b. simpl. by rewrite Nat.add_0_r, Nat.add_1_r.
  - by rewrite new_qubits_spec, length_fmap, length_seq.
Qed.

Section named_qubits.
Context {R : Type} `{RegisterLike R}.

Lemma named_qubits_loop_cons (reg : R) (regs : list R)
    (d : gmap string (list NamedQubit)) (next : nat) :
  named_qubits_loop (reg :: regs) d next
  = named_qubits_loop regs
      (<[name reg := imap (fun i s => mkNamedQubit (next + i) s)
                       (handle_names (name reg) (bitsize reg))]> d)
      (next + bitsize reg).
Proof.
  unfold named_qubits_loop. simpl. by rewrite qubits_for_reg_spec.
Qed.

Lemma named_qubits_next (regs : list R)
    (d : gmap string (list NamedQubit)) (next : nat) :
  (named_qubits_loop regs d next).2
  = (next + sum_list (bitsize <$> regs))%nat.
Proof.
  revert d next. induction regs as [|reg regs IH]; intros d next.
  - simpl. lia.
  - rewrite named_qubits_loop_cons, IH, fmap_cons. simpl. lia.
Qed.

Lemma named_qubits_dom_from (regs : list R)
    (d : gmap string (list NamedQubit)) (next : nat) :
  dom (named_qubits_loop regs d next).1
  = dom d ∪ list_to_set (name <$> regs).
Proof.
  revert d next. induction regs as [|reg regs IH]; intros d next.
  - simpl. by rewrite (right_id_L ∅ (∪)).
  - rewrite named_qubits_loop_cons, IH, dom_insert_L.
    rewrite fmap_cons, list_to_set_cons.
    by rewrite (comm_L (∪) {[name reg]}), (assoc_L (∪)).
Qed.

Lemma named_qubits_lookup_other (regs : list R)
    (d : gmap string (list NamedQubit)) (next : nat) (n : string) :
  n ∉ name <$> regs →
  (named_qubits_loop regs d next).1 !! n = d !! n.
Proof.
  revert d next. induction regs as [|reg regs IH]; intros d next Hn; [done|].
  rewrite fmap_cons, not_elem_of_cons in Hn. destruct Hn as [Hne Hn].
  rewrite named_qubits_loop_cons, IH by done. by rewrite lookup_insert_ne.
Qed.

(** Every register has the handles that were constructed for it, numbered
    from the count reached when its turn came. *)
Lemma named_qubits_lookup (regs : list R)
    (d : gmap string (list NamedQubit)) (next : nat) (reg : R) :
  NoDup (name <$> regs) → reg ∈ regs →
  ∃ first : nat,
    (named_qubits_loop regs d next).1 !! name reg
    = Some (imap (fun i s => mkNamedQubit (first + i) s)
              (handle_names (name reg) (bitsize reg))).
Proof.
  revert d next. induction regs as [|reg0 regs IH]; intros d next Hnodup Hin.
  - by apply elem_of_nil in Hin.
  - rewrite fmap_cons in Hnodup.
    apply NoDup_cons in Hnodup as [Hfresh Hnodup].
    rewrite named_qubits_loop_cons.
    apply elem_of_cons in Hin as [->|Hin]; [|by apply IH].
    exists next. by rewrite named_qubits_lookup_other, lookup_insert_eq.
Qed.

(** In declaration order, the handles of a call are the objects made from
    [next] on. *)
Lemma named_qubits_concat (regs : list R)
    (d : gmap string (list NamedQubit)) (next : nat) :
  NoDup (name <$> regs) →
  concat (handles_of (named_qubits_loop regs d next).1 <$> regs)
  = imap (fun i s => mkNamedQubit (next + i) s)
      (concat ((fun reg => handle_names (name reg) (bitsize reg)) <$> regs)).
Proof.
  revert d next.
  induction regs as [|reg regs IH]; intros d next Hnodup; [done|].
  rewrite fmap_cons in Hnodup. apply NoDup_cons in Hnodup as [Hfresh Hnodup].
  rewrite !fmap_cons, named_qubits_loop_cons. simpl.
  rewrite IH by done. rewrite imap_app, length_handle_names. f_equal.
  - unfold handles_of.
    by rewrite named_qubits_lookup_other, lookup_insert_eq.
  - apply imap_ext. intros i s _. simpl. f_equal. lia.
Qed.

Lemma length_concat_handle_names (regs : list R) :
  length (concat ((fun reg => handle_names (name reg) (bitsize reg))
                    <$> regs))
  = sum_list (bitsize <$> regs).
Proof.
  induction regs as [|reg regs IH]; [done|].
  rewrite !fmap_cons. simpl. by rewrite length_app, length_handle_names, IH.
Qed.

(** The objects of a call are those numbered [next] to
    [next + bitsize - 1]. *)
Lemma named_qubits_id_range (regs : list R)
    (d : gmap string (list NamedQubit)) (next : nat) (reg : R)
    (q : NamedQubit) :
  NoDup (name <$> regs) → reg ∈ regs →
  q ∈ handles_of (named_qubits_loop regs d next).1 reg →
  (next <= qubit_id q < next + sum_list (bitsize <$> regs))%nat.
Proof.
  intros Hnodup Hreg Hq.
  assert (qubit_id q
          ∈ qubit_id
              <$> concat (handles_of (named_qubits_loop regs d next).1
                            <$> regs)) as Hid.
  { apply list_elem_of_fmap_2.
    apply (elem_of_concat_2 _
             (handles_of (named_qubits_loop regs d next).1 reg));
      [by apply list_elem_of_fmap_2|done]. }
  rewrite named_qubits_concat, qubit_id_imap in Hid by done.
  rewrite length_concat_handle_names in Hid.
  by apply elem_of_seq in Hid.
Qed.
End named_qubits.

(** C9, as stated, fails: with registers [x] of 2 bits and [x0] of 1 bit
    a call returns three objects, and the first handle of register [x] and
    the handle of register [x0] are both named [x0]: they compare equal,
    so the two registers overlap. *)
Lemma named_qubits_overlap :
  Registers_init [mkRegister "x" 2; mkRegister "x0" 1] = Ok clashing_registers
  ∧ (get_named_qubits clashing_registers 0).1 !! "x"
    = Some [mkNamedQubit 0 "x0"; mkNamedQubit 1 "x1"]
  ∧ (get_named_qubits clashing_registers 0).1 !! "x0"
    = Some [mkNamedQubit 2 "x0"]
  ∧ NamedQubit_eq (mkNamedQubit 0 "x0") (mkNamedQubit 2 "x0") = true
  ∧ ¬ (∀ q1 q2 : NamedQubit,
         q1 ∈ [mkNamedQubit 0 "x0"; mkNamedQubit 1 "x1"] →
         q2 ∈ [mkNamedQubit 2 "x0"] →
         NamedQubit_eq q1 q2 = false).
Proof.
  split; [by vm_compute|]. split; [by vm_compute|]. split; [by vm_compute|].
  split; [by vm_compute|].
  intros Hdisjoint.
  assert (NamedQubit_eq (mkNamedQubit 0 "x0") (mkNamedQubit 2 "x0") = false)
    as Hfalse by (apply Hdisjoint; apply list_elem_of_here).
  by vm_compute in Hfalse.
Qed.

(** C9, amended: [get_named_qubits] returns a mapping with one entry per
    register: a single handle named after the register when its bitsize is
    1, otherwise bitsize handles named by the register's name followed by
    their decimal index. The handles of one register are mutually distinct.
    The handles of two registers are distinct from each other exactly when
    the two registers have no handle name in common, and in particular
    whenever neither register's name is the name of the other followed by
    decimal digits. Every call constructs new objects, bitsize of them,
    numbered in declaration order from the count reached before the call:
    no object is returned twice, by one call or by two calls. Handles
    compare by name, so those of a later call are equal to those of an
    earlier one. *)
Theorem get_named_qubits_entries {R : Type} `{RegisterLike R}
    (regs : list R) (r : Registers R) (next : nat) :
  Registers_init regs = Ok r →
  dom (get_named_qubits r next).1 = list_to_set (name <$> regs)
  ∧ (∀ reg : R,
       reg ∈ regs →
       ∃ qubits : list NamedQubit,
         (get_named_qubits r next).1 !! name reg = Some qubits
         ∧ length qubits = bitsize reg
         ∧ qubit_name <$> qubits
           = (if decide (bitsize reg = 1%nat)
              then [name reg]
              else (fun i => name reg +:+ str_of_nat i)
                     <$> seq 0 (bitsize reg))
         ∧ ∀ (i j : nat) (q1 q2 : NamedQubit),
             qubits !! i = Some q1 → qubits !! j = Some q2 → i ≠ j →
             NamedQubit_eq q1 q2 = false)
  ∧ (∀ reg1 reg2 : R,
       reg1 ∈ regs → reg2 ∈ regs →
       (∀ q1 q2 : NamedQubit,
          q1 ∈ handles_of (get_named_qubits r next).1 reg1 →
          q2 ∈ handles_of (get_named_qubits r next).1 reg2 →
          NamedQubit_eq q1 q2 = false)
       ↔ (∀ s : string,
            s ∈ handle_names (name reg1) (bitsize reg1) →
            s ∉ handle_names (name reg2) (bitsize reg2)))
  ∧ (∀ (reg1 reg2 : R) (q1 q2 : NamedQubit),
       reg1 ∈ regs → reg2 ∈ regs → reg1 ≠ reg2 →
       ¬ digits_extend (name reg1) (name reg2) →
       ¬ digits_extend (name reg2) (name reg1) →
       q1 ∈ handles_of (get_named_qubits r next).1 reg1 →
       q2 ∈ handles_of (get_named_qubits r next).1 reg2 →
       NamedQubit_eq q1 q2 = false)
  ∧ qubit_id <$> concat (handles_of (get_named_qubits r next).1 <$> regs)
    = seq next (Registers_bitsize r)
  ∧ (get_named_qubits r next).2 = (next + Registers_bitsize r)%nat
  ∧ (∀ (later : nat) (reg1 reg2 : R) (q1 q2 : NamedQubit),
       ((get_named_qubits r next).2 <= later)%nat →
       reg1 ∈ regs → reg2 ∈ regs →
       q1 ∈ handles_of (get_named_qubits r next).1 reg1 →
       q2 ∈ handles_of (get_named_qubits r later).1 reg2 →
       qubit_id q1 ≠ qubit_id q2)
  ∧ (∀ (later : nat) (reg : R),
       reg ∈ regs →
       qubit_name <$> handles_of (get_named_qubits r later).1 reg
       = qubit_name <$> handles_of (get_named_qubits r next).1 reg).
Proof.
  intros (Hnodup & Hregs & _)%Registers_init_Ok.
  assert (∀ (first : nat) (reg : R),
            reg ∈ regs →
            qubit_name <$> handles_of (get_named_qubits r first).1 reg
            = handle_names (name reg) (bitsize reg)) as Hnames.
  { intros first reg Hin. unfold handles_of, get_named_qubits. rewrite Hregs.
    destruct (named_qubits_lookup regs ∅ first reg Hnodup Hin) as [k ->].
    simpl. apply qubit_name_imap. }
  rewrite Registers_bitsize_sum. unfold get_named_qubits. rewrite Hregs.
  split; [|split; [|split; [|split; [|split; [|split; [|split]]]]]].
  - by rewrite named_qubits_dom_from, dom_empty_L, (left_id_L ∅ (∪)).
  - intros reg Hin.
    destruct (named_qubits_lookup regs ∅ next reg Hnodup Hin) as [k Hk].
    eexists. split; [exact Hk|].
    split; [by rewrite length_imap, length_handle_names|].
    split; [by rewrite qubit_name_imap|].
    intros i j q1 q2 Hi Hj Hij. apply bool_decide_eq_false. intros Heq.
    apply Hij.
    apply (NoDup_lookup (handle_names (name reg) (bitsize reg)) i j
             (qubit_name q1)); [apply NoDup_handle_names| |].
    + rewrite <- (qubit_name_imap k (handle_names _ _)).
      by rewrite list_lookup_fmap, Hi.
    + rewrite <- (qubit_name_imap k (handle_names _ _)).
      by rewrite list_lookup_fmap, Hj, Heq.
  - intros reg1 reg2 Hin1 Hin2.
    pose proof (Hnames next reg1 Hin1) as Hn1.
    pose proof (Hnames next reg2 Hin2) as Hn2.
    unfold get_named_qubits in Hn1, Hn2. rewrite Hregs in Hn1, Hn2.
    split.
    + intros Hdistinct s Hs1 Hs2. rewrite <- Hn1 in Hs1. rewrite <- Hn2 in Hs2.
      apply list_elem_of_fmap in Hs1 as (q1 & -> & Hq1).
      apply list_elem_of_fmap in Hs2 as (q2 & Heq & Hq2).
      specialize (Hdistinct q1 q2 Hq1 Hq2).
      by apply bool_decide_eq_false in Hdistinct.
    + intros Hdisjoint q1 q2 Hq1 Hq2. apply bool_decide_eq_false. intros Heq.
      apply (Hdisjoint (qubit_name q1)).
      * rewrite <- Hn1. by apply list_elem_of_fmap_2.
      * rewrite <- Hn2, Heq. by apply list_elem_of_fmap_2.
  - intros reg1 reg2 q1 q2 Hin1 Hin2 Hne Hext1 Hext2 Hq1 Hq2.
    apply bool_decide_eq_false. intros Heq.
    assert (qubit_name q1 ∈ handle_names (name reg1) (bitsize reg1)) as Hs1.
    { rewrite <- (Hnames next reg1 Hin1). unfold get_named_qubits.
      rewrite Hregs. by apply list_elem_of_fmap_2. }
    assert (qubit_name q1 ∈ handle_names (name reg2) (bitsize reg2)) as Hs2.
    { rewrite <- (Hnames next reg2 Hin2), Heq. unfold get_named_qubits.
      rewrite Hregs. by apply list_elem_of_fmap_2. }
    destruct (handle_names_clash _ _ _ _ _ Hs1 Hs2) as [Hsame|[Hext|Hext]];
      [|done|done].
    apply Hne. by apply (NoDup_fmap_elem_inj name regs).
  - by rewrite named_qubits_concat, qubit_id_imap, length_concat_handle_names.
  - apply named_qubits_next.
  - intros later reg1 reg2 q1 q2 Hlater Hin1 Hin2 Hq1 Hq2.
    rewrite named_qubits_next in Hlater.
    apply named_qubits_id_range in Hq1; [|done|done].
    apply named_qubits_id_range in Hq2; [|done|done]. lia.
  - intros later reg Hin.
    pose proof (Hnames later reg Hin) as Hl.
    pose proof (Hnames next reg Hin) as Hn.
    unfold get_named_qubits in Hl, Hn. rewrite Hregs in Hl, Hn.
    by rewrite Hl, Hn.
Qed.

Lemma get_named_qubits_entries_witness :
  (get_named_qubits q1_r_registers 0).1 !! "q1" = Some [mkNamedQubit 0 "q1"]
  ∧ (get_named_qubits q1_r_registers 0).1 !! "r"
    = Some [mkNamedQubit 1 "r0"; mkNamedQubit 2 "r1"]
  ∧ qubit_id
      <$> concat (handles_of (get_named_qubits q1_r_registers 0).1
                    <$> [mkRegister "q1" 1; mkRegister "r" 2])
    = seq 0 (Registers_bitsize q1_r_registers)
  ∧ ∀ q1 q2 : NamedQubit,
      q1 ∈ handles_of (get_named_qubits q1_r_registers 0).1
             (mkRegister "q1" 1) →
      q2 ∈ handles_of (get_named_qubits q1_r_registers 0).1
             (mkRegister "r" 2) →
      NamedQubit_eq q1 q2 = false.
Proof.
  destruct (get_named_qubits_entries
              [mkRegister "q1" 1; mkRegister "r" 2] q1_r_registers 0%nat)
    as (_ & _ & _ & Hdistinct & Hids & _); [by vm_compute|].
  split; [by vm_compute|]. split; [by vm_compute|]. split; [exact Hids|].
  intros q1 q2.
  apply (Hdistinct (mkRegister "q1" 1) (mkRegister "r" 2)).
  - apply list_elem_of_here.
  - apply list_elem_of_further, list_elem_of_here.
  - done.
  - intros (d & _ & _ & Heq).
    vm_compute in Heq. discriminate Heq.
  - intros (d & _ & _ & Heq).
    vm_compute in Heq. discriminate Heq.
Defined.

(** ** Arithmetic in 64 bits *)

Lemma wrap64_small (z : Z) : - 2 ^ 63 <= z < 2 ^ 63 → np.wrap64 z = z.
Proof. intros Hz. unfold np.wrap64. rewrite Z.mod_small; lia. Qed.

Lemma wrap64_range (z : Z) : - 2 ^ 63 <= np.wrap64 z < 2 ^ 63.
Proof.
  unfold np.wrap64.
  pose proof (Z.mod_pos_bound (z + 2 ^ 63) (2 ^ 64)) as Hmod. lia.
Qed.

Lemma wrap64_mod (z : Z) : np.wrap64 z mod 2 ^ 64 = z mod 2 ^ 64.
Proof.
  unfold np.wrap64. rewrite Zminus_mod_idemp_l. f_equal. lia.
Qed.

Lemma wrap64_eq (a b : Z) :
  a mod 2 ^ 64 = b mod 2 ^ 64 → np.wrap64 a = np.wrap64 b.
Proof.
  intros Hab. unfold np.wrap64. f_equal.
  rewrite <- (Zplus_mod_idemp_l a), <- (Zplus_mod_idemp_l b). by rewrite Hab.
Qed.

Lemma wrap64_idemp (z : Z) : np.wrap64 (np.wrap64 z) = np.wrap64 z.
Proof. apply wrap64_eq, wrap64_mod. Qed.

Lemma wrap64_mul_l (a b : Z) : np.wrap64 (np.wrap64 a * b) = np.wrap64 (a * b).
Proof.
  apply wrap64_eq.
  by rewrite <- Zmult_mod_idemp_l, wrap64_mod, Zmult_mod_idemp_l.
Qed.

Lemma wrap64_mul_r (a b : Z) : np.wrap64 (a * np.wrap64 b) = np.wrap64 (a * b).
Proof. by rewrite (Z.mul_comm a), wrap64_mul_l, (Z.mul_comm b). Qed.

Lemma wrap64_add_l (a b : Z) : np.wrap64 (np.wrap64 a + b) = np.wrap64 (a + b).
Proof.
  apply wrap64_eq.
  by rewrite <- Zplus_mod_idemp_l, wrap64_mod, Zplus_mod_idemp_l.
Qed.

Lemma wrap64_add_r (a b : Z) : np.wrap64 (a + np.wrap64 b) = np.wrap64 (a + b).
Proof. by rewrite (Z.add_comm a), wrap64_add_l, (Z.add_comm b). Qed.

Lemma fits_int64_spec (z : Z) :
  np.fits_int64 z = true ↔ - 2 ^ 63 <= z < 2 ^ 63.
Proof.
  unfold np.fits_int64. rewrite andb_true_iff, Z.leb_le, Z.ltb_lt. done.
Qed.

(** ** Products *)

Lemma product_of_app (xs ys : list Z) :
  product_of (xs ++ ys) = product_of xs * product_of ys.
Proof.
  unfold product_of. induction xs as [|x xs IH]; simpl; [lia|].
  rewrite IH. lia.
Qed.

Lemma product_of_rev (xs : list Z) : product_of (rev xs) = product_of xs.
Proof.
  induction xs as [|x xs IH]; [done|].
  simpl rev. rewrite product_of_app, IH. unfold product_of. simpl. lia.
Qed.

Lemma product_of_nonneg (xs : list Z) :
  Forall (fun x => 0 <= x) xs → 0 <= product_of xs.
Proof.
  unfold product_of. induction 1 as [|x xs Hx _ IH]; simpl; lia.
Qed.

(** [np.product] and [np.multiply.accumulate] on [int64] compute the
    products modulo [2^64]. *)
Lemma foldl_mul_int64 (acc : Z) (xs : list Z) :
  np.wrap64 acc = acc →
  foldl (np.mul np.int64) acc xs = np.wrap64 (acc * product_of xs).
Proof.
  revert acc. induction xs as [|x xs IH]; intros acc Hacc; simpl.
  - by rewrite Z.mul_1_r.
  - rewrite IH by apply wrap64_idemp.
    rewrite wrap64_mul_l. f_equal. unfold product_of. lia.
Qed.

Lemma accumulate_from_app (dt : np.dtype) (acc : Z) (xs ys : list Z) :
  np.accumulate_from dt acc (xs ++ ys)
  = np.accumulate_from dt acc xs
    ++ np.accumulate_from dt (foldl (np.mul dt) acc xs) ys.
Proof.
  revert acc. induction xs as [|x xs IH]; intros acc; simpl; [done|].
  by rewrite IH.
Qed.

Lemma accumulate_rev_int64 (lens : list Z) :
  rev (np.accumulate_from np.int64 1 (rev lens)) ++ [1]
  = np.wrap64 <$> suffix_products lens.
Proof.
  induction lens as [|l lens IH]; [done|].
  simpl rev. rewrite accumulate_from_app, rev_app_distr. simpl.
  rewrite IH. f_equal.
  rewrite foldl_mul_int64, product_of_rev by done.
  rewrite Z.mul_1_l, wrap64_mul_l. f_equal. lia.
Qed.

Lemma array_int64 (xs : list Z) :
  xs ≠ [] → Forall (fun x => - 2 ^ 63 <= x < 2 ^ 63) xs →
  np.array xs = np.Array np.int64 xs.
Proof.
  intros Hne Hfits. unfold np.array. destruct xs as [|x xs]; [done|].
  assert (forallb np.fits_int64 (x :: xs) = true) as ->; [|done].
  apply Is_true_eq_true, forallb_True.
  eapply Forall_impl; [exact Hfits|].
  intros z Hz. by apply Is_true_true, fits_int64_spec.
Qed.

(** In the [int64] regime the table [_suffix_prod] holds the suffix
    products modulo [2^64]. *)
Lemma suffix_prod_int64 (lens : list Z) :
  lens ≠ [] → Forall (fun x => - 2 ^ 63 <= x < 2 ^ 63) lens →
  suffix_table lens = np.Array np.int64 (np.wrap64 <$> suffix_products lens).
Proof.
  intros Hne Hfits. unfold suffix_table.
  rewrite array_int64; [| |by apply Forall_rev].
  2: { intros Hrev. apply Hne. by rewrite <- (rev_involutive lens), Hrev. }
  rewrite <- accumulate_rev_int64.
  destruct (rev lens) as [|x rest] eqn:Hrev; [done|].
  assert (- 2 ^ 63 <= x < 2 ^ 63) as Hx.
  { apply Forall_rev in Hfits. rewrite Hrev in Hfits.
    by apply Forall_cons in Hfits as [? _]. }
  simpl. by rewrite Z.mul_1_l, (wrap64_small x) by lia.
Qed.

(** ** The flat index in the [int64] regime *)

Lemma suffix_products_head (lens : list Z) :
  suffix_products lens !! 0%nat = Some (product_of lens).
Proof. by destruct lens. Qed.

Lemma flat_idx_loop_cons (a : np.ndarray) (i : nat) (v : Z) (vals : list Z)
    (t : number) :
  flat_idx_loop a i (v :: vals) t
  = (e ← np.getitem a (i + 1);
     term ← py_mul v e;
     total ← py_add t term;
     flat_idx_loop a (S i) vals total).
Proof. done. Qed.

Lemma getitem_int64 (xs : list Z) (i : nat) (x : Z) :
  xs !! i = Some x → np.getitem (np.Array np.int64 xs) i = Ok (np_int64 x).
Proof. intros Hx. unfold np.getitem. by rewrite Hx. Qed.

Lemma flat_idx_loop_int64 (vals lens pre : list Z) (t : Z) :
  length vals = length lens →
  Forall (fun v => - 2 ^ 63 <= v < 2 ^ 63) vals →
  np.wrap64 t = t →
  flat_idx_loop (np.Array np.int64 (np.wrap64 <$> pre ++ suffix_products lens))
                (length pre) vals (np_int64 t)
  = Ok (np_int64 (np.wrap64 (t + row_major lens vals))).
Proof.
  revert lens pre t.
  induction vals as [|v vals IH]; intros lens pre t Hlen Hvals Ht.
  - destruct lens; [|done]. simpl. by rewrite Z.add_0_r, Ht.
  - destruct lens as [|l lens]; [done|].
    apply Forall_cons in Hvals as [Hv Hvals].
    injection Hlen as Hlen.
    assert ((np.wrap64 <$> pre ++ suffix_products (l :: lens))
            !! (length pre + 1)%nat
            = Some (np.wrap64 (product_of lens))) as Hitem.
    { rewrite list_lookup_fmap, lookup_app_r by lia.
      replace (length pre + 1 - length pre)%nat with 1%nat by lia.
      simpl. by rewrite suffix_products_head. }
    rewrite flat_idx_loop_cons, (getitem_int64 _ _ _ Hitem). simpl.
    apply fits_int64_spec in Hv as ->. simpl.
    specialize (IH lens (pre ++ [l * product_of lens])
                  (np.wrap64 (t + np.wrap64 (v * np.wrap64 (product_of lens))))).
    rewrite length_app, Nat.add_1_r, <- (assoc_L (++)) in IH. cbn [app] in IH.
    rewrite IH by (done || apply wrap64_idemp).
    rewrite wrap64_mul_r, wrap64_add_l.
    match goal with
    | |- context [np.wrap64 (?a + np.wrap64 ?y + ?b)] =>
        replace (a + np.wrap64 y + b) with (np.wrap64 y + (a + b)) by lia
    end.
    rewrite wrap64_add_l. do 3 f_equal. simpl. lia.
Qed.

(** With iteration lengths and values that fit [int64], [to_flat_idx]
    returns the row-major index modulo [2^64]. *)
Lemma to_flat_idx_int64 (regs : list SelectionRegister)
    (self : SelectionRegisters) (vals : list Z) :
  SelectionRegisters_init regs = Ok self →
  regs ≠ [] →
  Forall (fun reg => 0 <= iteration_length reg < 2 ^ 63) regs →
  length vals = length regs →
  Forall (fun v => - 2 ^ 63 <= v < 2 ^ 63) vals →
  to_flat_idx self vals
  = Ok (np_int64 (np.wrap64 (row_major (iteration_length <$> regs) vals))).
Proof.
  intros Hinit Hne Hlens Hlen Hvals.
  apply SelectionRegisters_init_Ok in Hinit as (_ & Hregs & _ & Htable).
  unfold to_flat_idx, Registers_len. rewrite Hregs, Htable.
  rewrite decide_True by done.
  rewrite suffix_prod_int64.
  - destruct vals as [|v vals]; [by destruct regs|].
    destruct regs as [|reg regs]; [done|].
    apply Forall_cons in Hvals as [Hv Hvals]. injection Hlen as Hlen.
    rewrite fmap_cons, flat_idx_loop_cons.
    rewrite (getitem_int64 _ _ (np.wrap64 (product_of (iteration_length <$> regs))))
      by (simpl; by rewrite list_lookup_fmap, suffix_products_head).
    simpl. apply fits_int64_spec in Hv as ->. simpl.
    pose proof (flat_idx_loop_int64 vals (iteration_length <$> regs)
                  [product_of (iteration_length <$> reg :: regs)]) as Hloop.
    simpl in Hloop. rewrite Hloop; [|by rewrite length_fmap|done|].
    + rewrite wrap64_mul_r, wrap64_add_l, Z.add_0_l, wrap64_add_l. done.
    + by rewrite !wrap64_idemp.
  - intros Hnil. by apply fmap_nil_inv in Hnil.
  - apply Forall_fmap. eapply Forall_impl; [exact Hlens|]. simpl. lia.
Qed.

(** With iteration lengths that fit [int64], [total_iteration_size] is the
    product of the lengths modulo [2^64]. *)
Lemma total_iteration_size_int64 (regs : list SelectionRegister)
    (self : SelectionRegisters) :
  SelectionRegisters_init regs = Ok self →
  regs ≠ [] →
  Forall (fun reg => 0 <= iteration_length reg < 2 ^ 63) regs →
  total_iteration_size self
  = Ok (py_int (np.wrap64 (product_of (iteration_length <$> regs)))).
Proof.
  intros Hinit Hne Hlens.
  apply SelectionRegisters_init_Ok in Hinit as (_ & _ & Hself & _).
  unfold total_iteration_size. rewrite Hself, array_int64.
  - simpl. by rewrite foldl_mul_int64, Z.mul_1_l.
  - intros Hnil. by apply fmap_nil_inv in Hnil.
  - apply Forall_fmap. eapply Forall_impl; [exact Hlens|]. simpl. lia.
Qed.

(** ** Row-major enumeration *)

Lemma row_major_bounds (lens vals : list Z) :
  Forall2 (fun v l => 0 <= v < l) vals lens →
  0 <= row_major lens vals < product_of lens.
Proof.
  induction 1 as [|v l vals lens Hv _ IH]; simpl; [lia|].
  unfold product_of in *. nia.
Qed.

Lemma product_of_pos (lens : list Z) :
  Forall (fun x => 1 <= x) lens → 1 <= product_of lens.
Proof.
  unfold product_of. induction 1 as [|x lens Hx _ IH]; simpl; [lia|nia].
Qed.

Lemma factor_le_product (lens : list Z) (l : Z) :
  Forall (fun x => 1 <= x) lens → l ∈ lens → l <= product_of lens.
Proof.
  induction 1 as [|x lens Hx Hlens IH]; intros Hin.
  - by apply elem_of_nil in Hin.
  - pose proof (product_of_pos lens Hlens) as Hp.
    unfold product_of in *. simpl.
    apply elem_of_cons in Hin as [->|Hin]; [nia|].
    specialize (IH Hin). nia.
Qed.

Lemma bind_seqZ_blocks (p : Z) (n : nat) :
  0 <= p →
  (seqZ 0 (Z.of_nat n) ≫= fun i => seqZ (i * p) p) = seqZ 0 (Z.of_nat n * p).
Proof.
  intros Hp. induction n as [|n IH]; [done|].
  rewrite seqZ_S, bind_app, IH. simpl. rewrite app_nil_r, Z.add_0_l.
  replace (Z.of_nat (S n) * p) with (Z.of_nat n * p + p) by lia.
  rewrite seqZ_app by lia. by rewrite Z.add_0_l.
Qed.

Lemma fmap_bind_list {A B C : Type} (g : B → C) (f : A → list B)
    (l : list A) :
  g <$> (l ≫= f) = l ≫= fun x => g <$> f x.
Proof.
  induction l as [|x l IH]; [done|]. by rewrite !bind_cons, fmap_app, IH.
Qed.

(** The nested loops visit the flat indices [0], [1], ... in order. *)
Lemma row_major_index_tuples (lens : list Z) :
  Forall (fun l => 0 <= l) lens →
  row_major lens <$> index_tuples lens = seqZ 0 (product_of lens).
Proof.
  induction 1 as [|l lens Hl Hlens IH]; [done|].
  pose proof (product_of_nonneg lens Hlens) as Hp.
  change (index_tuples (l :: lens))
    with (seqZ 0 l ≫= fun i => cons i <$> index_tuples lens).
  rewrite fmap_bind_list.
  rewrite (list_bind_ext _ (fun i => seqZ (i * product_of lens) (product_of lens))
             (seqZ 0 l) (seqZ 0 l)); [| |done].
  - rewrite <- (Z2Nat.id l) by done. rewrite bind_seqZ_blocks by done. done.
  - intros i. rewrite <- list_fmap_compose.
    rewrite (list_fmap_ext _ (Z.add (i * product_of lens) ∘ row_major lens)
               (index_tuples lens)) by done.
    rewrite list_fmap_compose, IH, fmap_add_seqZ. by rewrite Z.add_0_r.
Qed.

Lemma index_tuples_in_range (lens vals : list Z) :
  vals ∈ index_tuples lens → Forall2 (fun v l => 0 <= v < l) vals lens.
Proof.
  revert vals. induction lens as [|l lens IH]; intros vals Hin.
  - apply list_elem_of_singleton in Hin as ->. constructor.
  - change (index_tuples (l :: lens))
      with (seqZ 0 l ≫= fun i => cons i <$> index_tuples lens) in Hin.
    apply list_elem_of_bind in Hin as (i & Hin & Hi).
    apply list_elem_of_fmap in Hin as (rest & -> & Hrest).
    apply elem_of_seqZ in Hi. constructor; [lia|by apply IH].
Qed.

(** While the total iteration size stays below [2^63], [to_flat_idx] on
    values inside their ranges returns the row-major index itself. *)
Lemma to_flat_idx_row_major (regs : list SelectionRegister)
    (self : SelectionRegisters) (vals : list Z) :
  SelectionRegisters_init regs = Ok self →
  product_of (iteration_length <$> regs) < 2 ^ 63 →
  Forall2 (fun v l => 0 <= v < l) vals (iteration_length <$> regs) →
  flat_value self vals = Some (row_major (iteration_length <$> regs) vals).
Proof.
  intros Hinit Hprod Hvals. unfold flat_value.
  destruct regs as [|reg regs].
  - apply Forall2_nil_inv_r in Hvals as ->.
    injection Hinit as <-. reflexivity.
  - remember (iteration_length <$> reg :: regs) as lens eqn:Heqlens.
    pose proof (row_major_bounds _ _ Hvals) as Hbound.
    assert (Forall (fun l => 1 <= l) lens) as Hpos.
    { eapply Forall2_Forall_r; [exact Hvals|].
      apply Forall_true. intros v l. lia. }
    assert (Forall (fun l => 0 <= l < 2 ^ 63) lens) as Hlens.
    { apply Forall_forall. intros l Hl.
      pose proof (factor_le_product lens l Hpos Hl).
      rewrite Forall_forall in Hpos. specialize (Hpos l Hl). lia. }
    rewrite (to_flat_idx_int64 (reg :: regs) self vals Hinit).
    + rewrite <- Heqlens. simpl. by rewrite wrap64_small by lia.
    + done.
    + rewrite Heqlens in Hlens. by apply Forall_fmap in Hlens.
    + apply Forall2_length in Hvals.
      by rewrite Heqlens, length_fmap in Hvals.
    + eapply Forall2_Forall_l; [exact Hvals|].
      apply Forall_forall. intros l Hl v Hv.
      rewrite Forall_forall in Hlens. specialize (Hlens l Hl). lia.
Qed.

(** While the total iteration size stays below [2^63], the tuples in
    lexicographic order are sent to [0], [1], ..., one after the other. *)
Lemma to_flat_idx_enumerates (regs : list SelectionRegister)
    (self : SelectionRegisters) :
  SelectionRegisters_init regs = Ok self →
  Forall is_SelectionRegister regs →
  product_of (iteration_length <$> regs) < 2 ^ 63 →
  flat_value self <$> index_tuples (iteration_length <$> regs)
  = Some <$> seqZ 0 (product_of (iteration_length <$> regs)).
Proof.
  intros Hinit Hvalid Hprod.
  rewrite <- row_major_index_tuples, <- list_fmap_compose.
  - apply list_fmap_ext. intros i vals Hvals. simpl.
    apply (to_flat_idx_row_major regs); [done..|].
    by eapply index_tuples_in_range, list_elem_of_lookup_2.
  - apply Forall_fmap. eapply Forall_impl; [exact Hvalid|].
    intros reg Hreg%is_SelectionRegister_range. simpl. lia.
Qed.

(** While the lengths and their product stay below [2^63],
    [total_iteration_size] is the product of the lengths. *)
Lemma total_iteration_size_exact (regs : list SelectionRegister)
    (self : SelectionRegisters) :
  SelectionRegisters_init regs = Ok self →
  Forall (fun reg => 0 <= iteration_length reg < 2 ^ 63) regs →
  product_of (iteration_length <$> regs) < 2 ^ 63 →
  total_iteration_size self
  = Ok (py_int (product_of (iteration_length <$> regs))).
Proof.
  intros Hinit Hlens Hprod. destruct regs as [|reg regs].
  - injection Hinit as <-. reflexivity.
  - rewrite (total_iteration_size_int64 (reg :: regs)) by done.
    rewrite wrap64_small; [done|].
    assert (0 <= product_of (iteration_length <$> reg :: regs)); [|lia].
    apply product_of_nonneg, Forall_fmap.
    eapply Forall_impl; [exact Hlens|]. simpl. lia.
Qed.

(** While the lengths and their product stay below [2^63],
    [total_iteration_size] counts the index tuples, and [to_flat_idx] sends
    them to pairwise different integers. *)
Lemma total_iteration_size_counts (regs : list SelectionRegister)
    (self : SelectionRegisters) :
  SelectionRegisters_init regs = Ok self →
  Forall is_SelectionRegister regs →
  Forall (fun reg => iteration_length reg < 2 ^ 63) regs →
  product_of (iteration_length <$> regs) < 2 ^ 63 →
  total_iteration_size self
  = Ok (py_int
          (Z.of_nat (length (index_tuples (iteration_length <$> regs)))))
  ∧ NoDup (flat_value self <$> index_tuples (iteration_length <$> regs)).
Proof.
  intros Hinit Hvalid Hlens Hprod.
  assert (Forall (fun reg => 0 <= iteration_length reg < 2 ^ 63) regs)
    as Hrange.
  { apply Forall_forall. intros reg Hreg.
    rewrite Forall_forall in Hvalid, Hlens.
    specialize (Hvalid reg Hreg). specialize (Hlens reg Hreg).
    apply is_SelectionRegister_range in Hvalid. lia. }
  assert (0 <= product_of (iteration_length <$> regs)) as Hnonneg.
  { apply product_of_nonneg, Forall_fmap.
    eapply Forall_impl; [exact Hrange|]. simpl. lia. }
  pose proof (to_flat_idx_enumerates regs self Hinit Hvalid Hprod) as Henum.
  split.
  - rewrite (total_iteration_size_exact regs) by done. do 2 f_equal.
    apply (f_equal length) in Henum.
    rewrite !length_fmap, length_seqZ in Henum. lia.
  - rewrite Henum. apply NoDup_fmap_2; [|apply NoDup_seqZ].
    by intros x y [= ->].
Qed.

(** C2 on iteration lengths [(2, 2^32, 2^32)]: the row-major
    index of [(1, 0, 0)] is [1 * 2^32 * 2^32 = 2^64], but [to_flat_idx]
    returns 0, below the 1 it returns for [(0, 0, 1)]: the suffix products
    are computed in 64-bit integers and wrap around. *)
Theorem to_flat_idx_wraps_around :
  ∃ self : SelectionRegisters,
    SelectionRegisters_init wide_selection = Ok self
    ∧ Forall is_SelectionRegister wide_selection
    ∧ row_major (iteration_lengths self) [1; 0; 0] = 2 ^ 64
    ∧ to_flat_idx self [1; 0; 0] = Ok (np_int64 0)
    ∧ to_flat_idx self [0; 0; 1] = Ok (np_int64 1).
Proof.
  eexists. split; [by vm_compute|].
  split; [by repeat constructor|].
  split; [by vm_compute|]. split; by vm_compute.
Qed.

(** C6 on iteration lengths [(2^32, 2^32)]: the product of the
    iteration lengths is [2^32 * 2^32 = 2^64], but [total_iteration_size]
    returns 0: [np.product] multiplies in 64-bit integers and wraps
    around. *)
Theorem total_iteration_size_wraps_around :
  ∃ self : SelectionRegisters,
    SelectionRegisters_init square_selection = Ok self
    ∧ Forall is_SelectionRegister square_selection
    ∧ product_of (iteration_lengths self) = 2 ^ 64
    ∧ total_iteration_size self = Ok (py_int 0).
Proof.
  eexists. split; [by vm_compute|].
  split; [by repeat constructor|]. split; by vm_compute.
Qed.

(** ** The examples of the docstring *)

(** Iteration lengths [(10, 20)]: [to_flat_idx(3, 7) = 3 * 20 + 7], the
    200 index pairs are sent to [0 .. 199] in order, and
    [total_iteration_size] is 200. *)
Lemma flat_index_two_registers :
  ∃ self : SelectionRegisters,
    SelectionRegisters_init xy_selection = Ok self
    ∧ flat_value self [3; 7] = Some 67
    ∧ flat_value self <$> index_tuples [10; 20] = Some <$> seqZ 0 200
    ∧ total_iteration_size self = Ok (py_int 200).
Proof.
  eexists. split; [by vm_compute|].
  assert (Forall is_SelectionRegister xy_selection) as Hvalid
    by (by repeat constructor).
  split; [|split].
  - apply (to_flat_idx_row_major xy_selection); [done|by vm_compute|].
    repeat constructor; lia.
  - apply (to_flat_idx_enumerates xy_selection); [done|done|by vm_compute].
  - apply (total_iteration_size_exact xy_selection); [done| |by vm_compute].
    repeat constructor; simpl; lia.
Defined.

(** * Further properties *)

(** ** What [merge_qubits] accepts and returns *)

Section merge.
Context {R : Type} `{RegisterLike R} {Qid : Type}.
Implicit Types (regs : list R) (ret out : list Qid).
Implicit Types (m : gmap string (qubit_arg Qid)).

Lemma merge_loop_step regs m ret (reg : R) :
  merge_loop (reg :: regs) m ret
  = if decide (supplied m reg)
    then merge_loop regs m (ret ++ handles_at m (name reg))
    else Raise AssertionError.
Proof.
  destruct (decide (supplied m reg)) as [[[arg Harg] Hlen]|Hreg].
  - unfold handles_at in *. rewrite Harg in Hlen. simpl. rewrite Harg.
    destruct arg; simpl in *; by rewrite decide_True.
  - simpl. destruct (m !! name reg) as [arg|] eqn:Harg; [|done].
    case_decide as Hlen; [|done]. exfalso. apply Hreg.
    split; [by rewrite Harg|].
    unfold handles_at. rewrite Harg. by destruct arg.
Qed.

Lemma merge_loop_spec regs m ret :
  merge_loop regs m ret
  = if decide (Forall (supplied m) regs)
    then Ok (ret ++ concat ((fun reg => handles_at m (name reg)) <$> regs))
    else Raise AssertionError.
Proof.
  revert ret. induction regs as [|reg regs IH]; intros ret.
  - destruct (decide (Forall (supplied m) [])) as [_|Hnil].
    + simpl. by rewrite app_nil_r.
    + destruct Hnil. constructor.
  - rewrite merge_loop_step, IH.
    destruct (decide (supplied m reg)) as [Hreg|Hreg];
      destruct (decide (Forall (supplied m) regs)) as [Hregs|Hregs];
      destruct (decide (Forall (supplied m) (reg :: regs))) as [Hall|Hall];
      try done.
    + rewrite fmap_cons. simpl. by rewrite (assoc_L (++)).
    + destruct Hall. by constructor.
    + apply Forall_cons in Hall as [_ ?]. done.
    + apply Forall_cons in Hall as [? _]. done.
    + apply Forall_cons in Hall as [? _]. done.
Qed.

Lemma length_supplied_handles regs m :
  Forall (supplied m) regs →
  length (concat ((fun reg => handles_at m (name reg)) <$> regs))
  = sum_list (bitsize <$> regs).
Proof.
  induction 1 as [|reg regs [_ Hlen] _ IH]; [done|].
  rewrite !fmap_cons. simpl. by rewrite length_app, Hlen, IH.
Qed.
End merge.

(** X1: [merge_qubits] raises [TypeError] on a keyword named [self];
    otherwise it returns the handles supplied for the registers,
    concatenated in declaration order, when every register is supplied with
    exactly [bitsize] handles (one handle standing for a sequence of
    length 1), and raises [AssertionError] when a register is missing or
    has another number of handles. Names that no register has are
    ignored. *)
Theorem merge_qubits_outcome {R : Type} `{RegisterLike R} {Qid : Type}
    (r : Registers R) (qubit_regs : gmap string (qubit_arg Qid)) :
  merge_qubits r qubit_regs
  = if decide (is_Some (qubit_regs !! "self")) then Raise TypeError
    else if decide (Forall (supplied qubit_regs) (_registers r))
    then Ok (concat ((fun reg => handles_at qubit_regs (name reg))
                       <$> _registers r))
    else Raise AssertionError.
Proof.
  unfold merge_qubits. case_decide; [done|]. by rewrite merge_loop_spec.
Qed.

(** X2: whenever [merge_qubits] returns, the flat sequence has exactly
    [bitsize] handles, the number of qubits [on_registers] binds the gate
    to. *)
Theorem merge_qubits_length {R : Type} `{RegisterLike R} {Qid : Type}
    (r : Registers R) (qubit_regs : gmap string (qubit_arg Qid))
    (out : list Qid) :
  merge_qubits r qubit_regs = Ok out →
  length out = Registers_bitsize r.
Proof.
  unfold merge_qubits. case_decide; [done|]. rewrite merge_loop_spec.
  case_decide as Hall; [|done]. intros [= <-]. simpl.
  by rewrite length_supplied_handles, Registers_bitsize_sum.
Qed.

Lemma merge_qubits_length_witness :
  merge_qubits (registers MultiTargetCSwap) cswap_arguments
  = Ok ["c"; "x0"; "x1"; "y0"; "y1"]
  ∧ length ["c"; "x0"; "x1"; "y0"; "y1"]
    = Registers_bitsize (registers MultiTargetCSwap).
Proof.
  assert (merge_qubits (registers MultiTargetCSwap) cswap_arguments
          = Ok ["c"; "x0"; "x1"; "y0"; "y1"]) as Hmerge by (by vm_compute).
  split; [exact Hmerge|].
  exact (merge_qubits_length _ _ _ Hmerge).
Defined.

Lemma slice_concat {R : Type} `{RegisterLike R} {Qid : Type}
    (f : R → list Qid) (regs : list R) (i : nat) (reg : R) :
  Forall (fun reg => length (f reg) = bitsize reg) regs →
  regs !! i = Some reg →
  slice (concat (f <$> regs))
        (sum_list (bitsize <$> take i regs))
        (sum_list (bitsize <$> take i regs) + bitsize reg)
  = f reg.
Proof.
  intros Hlen. revert i. induction Hlen as [|reg0 regs Hreg0 _ IH]; intros i Hi;
    [done|].
  rewrite fmap_cons. unfold slice in *. simpl concat.
  destruct i as [|i]; simpl in Hi.
  - injection Hi as ->.
    change (sum_list (bitsize <$> take 0 (reg :: regs))) with 0%nat.
    rewrite drop_0.
    replace (0 + bitsize reg - 0)%nat with (bitsize reg) by lia.
    by rewrite take_app_length'.
  - specialize (IH i Hi).
    change (sum_list (bitsize <$> take (S i) (reg0 :: regs)))
      with (bitsize reg0 + sum_list (bitsize <$> take i regs))%nat.
    rewrite drop_app_add' by done. rewrite <- IH. f_equal. lia.
Qed.

(** X3: splitting what [merge_qubits] returned gives every register the
    handles that were supplied for it: the expansion of a gate bound with
    [on_registers] sees the partition the caller passed. *)
Theorem split_merge_roundtrip {R : Type} `{RegisterLike R} {Qid : Type}
    (regs : list R) (r : Registers R)
    (qubit_regs : gmap string (qubit_arg Qid)) (qs : list Qid) :
  Registers_init regs = Ok r →
  merge_qubits r qubit_regs = Ok qs →
  ∀ reg : R, reg ∈ regs →
    split_qubits r qs !! name reg = Some (handles_at qubit_regs (name reg)).
Proof.
  intros (Hnodup & Hregs & _)%Registers_init_Ok Hmerge reg Hreg.
  unfold merge_qubits in Hmerge. rewrite Hregs in Hmerge.
  case_decide; [done|]. rewrite merge_loop_spec in Hmerge.
  case_decide as Hall; [|done]. injection Hmerge as <-.
  apply list_elem_of_lookup_1 in Hreg as [i Hi].
  unfold split_qubits. rewrite Hregs.
  rewrite (split_loop_lookup regs _ ∅ 0 i reg) by done. f_equal.
  rewrite !Nat.add_0_l.
  apply (slice_concat (fun reg => handles_at qubit_regs (name reg))); [|done].
  eapply Forall_impl; [exact Hall|]. by intros ? [_ ?].
Qed.

Lemma split_merge_roundtrip_witness :
  split_qubits (registers MultiTargetCSwap) ["c"; "x0"; "x1"; "y0"; "y1"] !! "x"
  = Some ["x0"; "x1"].
Proof.
  apply (split_merge_roundtrip
           [mkRegister "ctrl" 1; mkRegister "x" 2; mkRegister "y" 2]
           (registers MultiTargetCSwap) cswap_arguments _
           ltac:(by vm_compute) ltac:(by vm_compute) (mkRegister "x" 2)).
  apply list_elem_of_further, list_elem_of_here.
Defined.

(** ** The partition made by [split_qubits] *)

Lemma split_loop_concat {R : Type} `{RegisterLike R} {Qid : Type}
    (regs : list R) (qs : list Qid) (m : gmap string (list Qid)) (base : nat) :
  NoDup (name <$> regs) →
  concat ((fun reg => default [] (split_loop regs qs m base !! name reg))
            <$> regs)
  = slice qs base (base + sum_list (bitsize <$> regs)).
Proof.
  revert m base. induction regs as [|reg regs IH]; intros m base Hnodup.
  - unfold slice. simpl. replace (base + 0 - base)%nat with 0%nat by lia.
    by rewrite take_0.
  - rewrite fmap_cons in Hnodup.
    apply NoDup_cons in Hnodup as [Hfresh Hnodup].
    change (sum_list (bitsize <$> reg :: regs))
      with (bitsize reg + sum_list (bitsize <$> regs))%nat.
    rewrite <- slice_app, <- (IH (<[name reg :=
      slice qs base (base + bitsize reg)]> m)) by done.
    rewrite fmap_cons. simpl.
    by rewrite split_loop_lookup_other, lookup_insert_eq.
Qed.

(** X4: the sub-sequences that [split_qubits] hands out, taken in
    declaration order, are the first [bitsize] handles of the flat
    sequence: the registers partition that prefix contiguously, no handle
    is handed to two registers, and handles beyond [bitsize] are dropped
    without an error. *)
Theorem split_qubits_partition {R : Type} `{RegisterLike R} {Qid : Type}
    (regs : list R) (r : Registers R) (qs : list Qid) :
  Registers_init regs = Ok r →
  concat ((fun reg => default [] (split_qubits r qs !! name reg)) <$> regs)
  = take (Registers_bitsize r) qs
  ∧ (NoDup qs →
     NoDup (concat ((fun reg => default [] (split_qubits r qs !! name reg))
                      <$> regs))).
Proof.
  intros (Hnodup & Hregs & _)%Registers_init_Ok.
  assert (concat ((fun reg => default [] (split_qubits r qs !! name reg))
                    <$> regs)
          = take (Registers_bitsize r) qs) as Hparts.
  { unfold split_qubits. rewrite Registers_bitsize_sum, Hregs.
    rewrite split_loop_concat by done. unfold slice.
    by rewrite Nat.add_0_l, Nat.sub_0_r, drop_0. }
  split; [done|]. intros Hqs. rewrite Hparts.
  eapply sublist_NoDup; [exact Hqs|apply sublist_take].
Qed.

Lemma split_qubits_partition_witness :
  concat ((fun reg => default []
             (split_qubits (registers MultiTargetCSwap)
                ["c"; "x0"; "x1"; "y0"; "y1"; "z"] !! name reg))
            <$> [mkRegister "ctrl" 1; mkRegister "x" 2; mkRegister "y" 2])
  = ["c"; "x0"; "x1"; "y0"; "y1"].
Proof.
  exact (proj1 (split_qubits_partition
                  [mkRegister "ctrl" 1; mkRegister "x" 2; mkRegister "y" 2]
                  (registers MultiTargetCSwap)
                  ["c"; "x0"; "x1"; "y0"; "y1"; "z"] ltac:(by vm_compute))).
Defined.

(** X5: the handles of [get_named_qubits] can be passed back to
    [merge_qubits]: when no register is named [self] the call returns the
    handles of the registers in declaration order, [bitsize] of them: the
    objects that the call of [get_named_qubits] made, in the order of
    their construction. *)
Theorem merge_named_qubits {R : Type} `{RegisterLike R}
    (regs : list R) (r : Registers R) (next : nat) :
  Registers_init regs = Ok r →
  "self" ∉ name <$> regs →
  ∃ qs : list NamedQubit,
    merge_qubits r (qubit_seq <$> (get_named_qubits r next).1) = Ok qs
    ∧ qs = concat (handles_of (get_named_qubits r next).1 <$> regs)
    ∧ qubit_name <$> qs
      = concat ((fun reg => handle_names (name reg) (bitsize reg)) <$> regs)
    ∧ qubit_id <$> qs = seq next (Registers_bitsize r)
    ∧ length qs = Registers_bitsize r.
Proof.
  intros (Hnodup & Hregs & _)%Registers_init_Ok Hself.
  rewrite Registers_bitsize_sum. unfold merge_qubits, get_named_qubits.
  rewrite Hregs.
  remember (named_qubits_loop regs ∅ next).1 as d eqn:Hd.
  assert (∀ reg, reg ∈ regs →
            (qubit_seq <$> d) !! name reg = Some (qubit_seq (handles_of d reg))
            ∧ length (handles_of d reg) = bitsize reg) as Hentry.
  { intros reg Hreg. unfold handles_of. rewrite lookup_fmap, Hd.
    destruct (named_qubits_lookup regs ∅ next reg Hnodup Hreg) as [k ->].
    simpl. by rewrite length_imap, length_handle_names. }
  assert (Forall (supplied (qubit_seq <$> d)) regs) as Hall.
  { apply Forall_forall. intros reg Hreg. unfold supplied, handles_at.
    destruct (Hentry reg Hreg) as [-> Hlen]. split; [by eexists|done]. }
  assert (concat ((fun reg => handles_at (qubit_seq <$> d) (name reg))
                    <$> regs)
          = concat (handles_of d <$> regs)) as Hsame.
  { f_equal. apply list_fmap_ext. intros i reg Hi. unfold handles_at.
    by destruct (Hentry reg) as [-> _]; [by eapply list_elem_of_lookup_2|]. }
  exists (concat (handles_of d <$> regs)).
  split; [|split; [done|]].
  - rewrite decide_False.
    + by rewrite merge_loop_spec, decide_True, Hsame.
    + rewrite lookup_fmap, Hd, named_qubits_lookup_other, lookup_empty
        by done.
      apply is_Some_None.
  - rewrite Hd, named_qubits_concat by done.
    rewrite qubit_name_imap, qubit_id_imap, length_imap.
    by rewrite length_concat_handle_names.
Qed.

Lemma merge_named_qubits_witness :
  ∃ qs : list NamedQubit,
    merge_qubits xy_registers
      (qubit_seq <$> (get_named_qubits xy_registers 0).1)
    = Ok qs
    ∧ qs = concat (handles_of (get_named_qubits xy_registers 0).1
                     <$> [mkRegister "x" 1; mkRegister "y" 3])
    ∧ qubit_name <$> qs
      = concat ((fun reg => handle_names (name reg) (bitsize reg))
                  <$> [mkRegister "x" 1; mkRegister "y" 3])
    ∧ qubit_id <$> qs = seq 0 (Registers_bitsize xy_registers)
    ∧ length qs = Registers_bitsize xy_registers.
Proof.
  apply (merge_named_qubits [mkRegister "x" 1; mkRegister "y" 3]
           xy_registers 0%nat).
  - by vm_compute.
  - apply (bool_decide_unpack _). by vm_compute.
Defined.

(** ** Indexing a collection *)

Section getitem.
Context {R : Type} `{RegisterLike R}.
Implicit Types (regs : list R) (r : Registers R).

Lemma register_dict_lookup_other regs (d : gmap string R) (n : string) :
  n ∉ name <$> regs →
  foldl (fun d reg => <[name reg := reg]> d) d regs !! n = d !! n.
Proof.
  revert d. induction regs as [|reg regs IH]; intros d Hn; [done|].
  rewrite fmap_cons, not_elem_of_cons in Hn. destruct Hn as [Hne Hn].
  simpl. rewrite IH by done. by rewrite lookup_insert_ne.
Qed.

Lemma register_dict_lookup regs (d : gmap string R) (reg : R) :
  NoDup (name <$> regs) → reg ∈ regs →
  foldl (fun d reg => <[name reg := reg]> d) d regs !! name reg = Some reg.
Proof.
  revert d. induction regs as [|reg0 regs IH]; intros d Hnodup Hin.
  - by apply elem_of_nil in Hin.
  - rewrite fmap_cons in Hnodup.
    apply NoDup_cons in Hnodup as [Hfresh Hnodup]. simpl.
    apply elem_of_cons in Hin as [->|Hin]; [|by apply IH].
    by rewrite register_dict_lookup_other, lookup_insert_eq.
Qed.

Lemma tuple_index_spec {A : Type} (l : list A) (i : Z) :
  tuple_index l i
  = if decide (- Z.of_nat (length l) <= i < Z.of_nat (length l))
    then match l !! Z.to_nat (i `mod` Z.of_nat (length l)) with
         | Some x => Ok x
         | None => Raise IndexError
         end
    else Raise IndexError.
Proof.
  unfold tuple_index. cbv zeta.
  assert (0 <= Z.of_nat (length l)) as Hlen by lia.
  generalize dependent (Z.of_nat (length l)). intros len Hlen.
  destruct (Z.ltb_spec i 0) as [Hneg|Hneg]; simpl;
    repeat match goal with
           | |- context [?a <? ?b] => destruct (Z.ltb_spec a b); simpl
           | |- context [?a <=? ?b] => destruct (Z.leb_spec a b); simpl
           end;
    case_decide; try lia; try done.
  - replace (i `mod` len) with (i + len); [done|].
    apply (Z.mod_unique i len (-1) (i + len)); lia.
  - by rewrite Z.mod_small by lia.
Qed.
End getitem.

(** X6: an integer key [i] selects the register at position [i], counted
    from the end when [i] is negative ([r[-1]] is the last register), and
    raises [IndexError] exactly when [i] is outside [-len(r), len(r)). *)
Theorem getitem_by_position {R : Type} `{RegisterLike R} (r : Registers R)
    (i : Z) :
  if decide (- Z.of_nat (Registers_len r) <= i < Z.of_nat (Registers_len r))
  then ∃ reg : R,
         _registers r !! Z.to_nat (i `mod` Z.of_nat (Registers_len r))
         = Some reg
         ∧ Registers_getitem r (key_int i) = Ok (item_register reg)
  else Registers_getitem r (key_int i) = Raise IndexError.
Proof.
  unfold Registers_getitem, Registers_len. rewrite tuple_index_spec.
  case_decide as Hi; [|done].
  destruct (lookup_lt_is_Some_2 (_registers r)
              (Z.to_nat (i `mod` Z.of_nat (length (_registers r)))))
    as [reg Hreg].
  - pose proof (Z.mod_pos_bound i (Z.of_nat (length (_registers r)))). lia.
  - exists reg. by rewrite Hreg.
Qed.

(** X7: on a constructed collection, a name key returns the register that
    has this name, and raises [KeyError] exactly when no register has it;
    [in] answers accordingly. *)
Theorem getitem_by_name {R : Type} `{RegisterLike R}
    (regs : list R) (r : Registers R) :
  Registers_init regs = Ok r →
  (∀ reg : R, reg ∈ regs →
     Registers_getitem r (key_str (name reg)) = Ok (item_register reg))
  ∧ (∀ s : string, s ∉ name <$> regs →
       Registers_getitem r (key_str s) = Raise KeyError)
  ∧ (∀ s : string,
       Registers_contains r s = bool_decide (s ∈ name <$> regs)).
Proof.
  intros (Hnodup & Hregs & Hdict)%Registers_init_Ok.
  assert (∀ reg, reg ∈ regs → _register_dict r !! name reg = Some reg) as Hin.
  { intros reg Hreg. rewrite Hdict. by apply register_dict_lookup. }
  assert (∀ s, s ∉ name <$> regs → _register_dict r !! s = None) as Hout.
  { intros s Hs. rewrite Hdict. unfold register_dict.
    by rewrite register_dict_lookup_other. }
  split; [|split].
  - intros reg Hreg. simpl. by rewrite Hin.
  - intros s Hs. simpl. by rewrite Hout.
  - intros s. unfold Registers_contains.
    destruct (decide (s ∈ name <$> regs)) as [Hs|Hs].
    + apply list_elem_of_fmap in Hs as (reg & -> & Hreg).
      rewrite Hin by done.
      rewrite !bool_decide_eq_true_2; [done| |by eexists].
      apply list_elem_of_fmap. by exists reg.
    + rewrite Hout by done.
      rewrite !bool_decide_eq_false_2; [done|done|apply is_Some_None].
Qed.

Lemma getitem_by_name_witness :
  Registers_getitem (registers MultiTargetCSwap) (key_str "x")
  = Ok (item_register (mkRegister "x" 2)).
Proof.
  apply (proj1 (getitem_by_name
                  [mkRegister "ctrl" 1; mkRegister "x" 2; mkRegister "y" 2]
                  (registers MultiTargetCSwap) ltac:(by vm_compute))
           (mkRegister "x" 2)).
  apply list_elem_of_further, list_elem_of_here.
Defined.

(** ** Slices *)

Lemma adjust_index_range (len step i : Z) :
  0 <= len →
  (0 < step → 0 <= adjust_index len step i <= len)
  ∧ (step < 0 → -1 <= adjust_index len step i <= len - 1).
Proof.
  intros Hlen. unfold adjust_index.
  destruct (Z.ltb_spec i 0); destruct (Z.ltb_spec (i + len) 0);
    destruct (Z.ltb_spec step 0); destruct (Z.leb_spec len i); lia.
Qed.

Lemma NoDup_omap_lookup {A : Type} (l : list A) (f : nat → nat)
    (ks : list nat) :
  NoDup l → NoDup ks →
  (∀ j k, j ∈ ks → k ∈ ks → f j = f k → j = k) →
  NoDup (omap (fun k => l !! f k) ks).
Proof.
  intros Hl Hks. induction Hks as [|k ks Hk Hks IH]; intros Hinj;
    [constructor|].
  assert (NoDup (omap (fun k => l !! f k) ks)) as Hrest.
  { apply IH. intros i j Hi Hj. apply Hinj; by apply list_elem_of_further. }
  simpl. destruct (l !! f k) as [x|] eqn:Hx; [|done].
  constructor; [|done].
  intros (j & Hj & Hjx)%list_elem_of_omap.
  pose proof (NoDup_lookup l _ _ x Hl Hx Hjx) as Hfjk.
  apply Hinj in Hfjk; [|apply list_elem_of_here|by apply list_elem_of_further].
  by subst j.
Qed.

Lemma fmap_omap_lookup {A B : Type} (g : A → B) (l : list A) (f : nat → nat)
    (ks : list nat) :
  g <$> omap (fun k => l !! f k) ks = omap (fun k => (g <$> l) !! f k) ks.
Proof.
  induction ks as [|k ks IH]; [done|]. simpl.
  rewrite list_lookup_fmap. destruct (l !! f k); simpl; [|exact IH].
  f_equal. exact IH.
Qed.

(** A slice with a step that is not zero selects positions inside the
    sequence, each at most once. *)
Lemma slice_step_selection {A : Type} (l : list A) (start stop step : option Z) :
  step ≠ Some 0 →
  ∃ (f : nat → nat) (n : nat),
    slice_step l start stop step = Ok (omap (fun k => l !! f k) (seq 0 n))
    ∧ ∀ j k, (j < n)%nat → (k < n)%nat → f j = f k → j = k.
Proof.
  intros Hstep. unfold slice_step. cbv zeta.
  assert (default 1 step ≠ 0) as Hst by (destruct step as [st|]; naive_solver).
  destruct (Z.eqb_spec (default 1 step) 0) as [|_]; [done|].
  assert (0 <= Z.of_nat (length l)) as Hlen by lia.
  generalize dependent (Z.of_nat (length l)). intros len Hlen.
  generalize dependent (default 1 step). intros st Hst.
  pose proof (fun i => adjust_index_range len st i Hlen) as Hadj.
  set (lo := match start with
             | Some i => adjust_index len st i
             | None => if st <? 0 then len - 1 else 0
             end).
  set (hi := match stop with
             | Some i => adjust_index len st i
             | None => if st <? 0 then -1 else len
             end).
  assert ((0 < st → 0 <= lo <= len) ∧ (st < 0 → -1 <= lo <= len - 1)) as Hlo.
  { subst lo. destruct start as [i|]; [apply Hadj|].
    destruct (Z.ltb_spec st 0); lia. }
  assert ((0 < st → 0 <= hi <= len) ∧ (st < 0 → -1 <= hi <= len - 1)) as Hhi.
  { subst hi. destruct stop as [i|]; [apply Hadj|].
    destruct (Z.ltb_spec st 0); lia. }
  clearbody lo hi. clear Hadj.
  eexists (fun k => Z.to_nat (lo + Z.of_nat k * st)), _.
  split; [reflexivity|]. intros j k Hj Hk Hjk.
  match type of Hj with
  | (_ < ?n)%nat =>
      assert (∀ i : nat, (i < n)%nat → 0 <= lo + Z.of_nat i * st) as Hnonneg
  end.
  { intros i Hi. destruct (Z.ltb_spec st 0) as [Hneg|Hpos]; [|nia].
    destruct (Z.ltb_spec hi lo) as [Hlt|Hge]; [|simpl in Hi; lia].
    pose proof (Z.mul_div_le (lo - hi - 1) (- st)) as Hdiv.
    assert (Z.of_nat i <= (lo - hi - 1) `div` (- st)) as Hle by lia.
    nia. }
  pose proof (Hnonneg j Hj). pose proof (Hnonneg k Hk).
  assert (lo + Z.of_nat j * st = lo + Z.of_nat k * st) as Heq by lia.
  nia.
Qed.

Lemma slice_step_NoDup {A B : Type} (g : A → B) (l sub : list A)
    (start stop step : option Z) :
  NoDup (g <$> l) →
  slice_step l start stop step = Ok sub →
  NoDup (g <$> sub) ∧ ∀ x, x ∈ sub → x ∈ l.
Proof.
  intros Hnodup Hsub.
  assert (step ≠ Some 0) as Hstep.
  { intros ->. unfold slice_step in Hsub. done. }
  destruct (slice_step_selection l start stop step Hstep)
    as (f & n & Hsel & Hinj).
  rewrite Hsel in Hsub. injection Hsub as <-. split.
  - rewrite fmap_omap_lookup. apply NoDup_omap_lookup; [done|apply NoDup_seq|].
    intros j k Hj%elem_of_seq Hk%elem_of_seq. apply Hinj; lia.
  - intros x (k & _ & Hx)%list_elem_of_omap. by eapply list_elem_of_lookup_2.
Qed.

(** X8: on a constructed [Registers] or [SelectionRegisters], a slice key
    with step 0 raises [ValueError]; any other slice succeeds and returns
    a collection of the registers that the slice selects from the tuple:
    members of the original, with pairwise different names, so that the
    constructor never refuses them. A sliced [SelectionRegisters] carries
    the iteration lengths of the selected registers. *)
Theorem getitem_slice (start stop step : option Z) :
  (∀ (R : Type) (HR : RegisterLike R) (regs : list R) (r : Registers R),
     Registers_init regs = Ok r →
     if decide (step = Some 0)
     then Registers_getitem r (key_slice start stop step) = Raise ValueError
     else ∃ sub : list R,
            slice_step regs start stop step = Ok sub
            ∧ Registers_getitem r (key_slice start stop step)
              = Ok (item_registers (registers_of sub))
            ∧ NoDup (name <$> sub)
            ∧ ∀ reg, reg ∈ sub → reg ∈ regs)
  ∧ (∀ (regs : list SelectionRegister) (self : SelectionRegisters),
       SelectionRegisters_init regs = Ok self →
       if decide (step = Some 0)
       then SelectionRegisters_getitem self (key_slice start stop step)
            = Raise ValueError
       else ∃ (sub : list SelectionRegister) (part : SelectionRegisters),
              slice_step regs start stop step = Ok sub
              ∧ SelectionRegisters_getitem self (key_slice start stop step)
                = Ok (item_selection_registers part)
              ∧ _registers (super part) = sub
              ∧ iteration_lengths part = iteration_length <$> sub).
Proof.
  assert (∀ (R : Type) (HR : RegisterLike R) (regs : list R),
            NoDup (name <$> regs) →
            if decide (step = Some 0)
            then slice_step regs start stop step = Raise ValueError
            else ∃ sub : list R,
                   slice_step regs start stop step = Ok sub
                   ∧ Registers_init sub = Ok (registers_of sub)
                   ∧ NoDup (name <$> sub)
                   ∧ ∀ reg, reg ∈ sub → reg ∈ regs) as Hslice.
  { intros R HR regs Hnodup. case_decide as Hstep; [by subst step|].
    destruct (slice_step_selection regs start stop step Hstep)
      as (f & n & Hsel & _).
    destruct (slice_step_NoDup name regs _ start stop step Hnodup Hsel)
      as [Hsub Hin].
    eexists. split; [exact Hsel|]. split; [|done].
    by rewrite Registers_init_spec, bool_decide_eq_true_2. }
  split.
  - intros R HR regs r (Hnodup & Hregs & _)%Registers_init_Ok.
    specialize (Hslice R HR regs Hnodup). simpl. rewrite Hregs.
    case_decide; [by rewrite Hslice|].
    destruct Hslice as (sub & Hsub & Hinit & Hrest).
    exists sub. rewrite Hsub. simpl. by rewrite Hinit.
  - intros regs self Hself.
    apply SelectionRegisters_init_Ok in Hself as (Hnodup & Hregs & _).
    specialize (Hslice _ _ regs Hnodup). simpl. rewrite Hregs.
    case_decide; [by rewrite Hslice|].
    destruct Hslice as (sub & Hsub & Hinit & Hrest & _).
    exists sub. rewrite Hsub. simpl.
    rewrite SelectionRegisters_init_spec, bool_decide_eq_true_2 by done.
    simpl. eexists. done.
Qed.

Lemma getitem_slice_witness :
  ∃ sub : list Register,
    slice_step [mkRegister "ctrl" 1; mkRegister "x" 2; mkRegister "y" 2]
      None None (Some (-1))
    = Ok sub
    ∧ Registers_getitem (registers MultiTargetCSwap)
        (key_slice None None (Some (-1)))
      = Ok (item_registers (registers_of sub))
    ∧ NoDup (name <$> sub)
    ∧ ∀ reg, reg ∈ sub →
        reg ∈ [mkRegister "ctrl" 1; mkRegister "x" 2; mkRegister "y" 2].
Proof.
  exact (proj1 (getitem_slice None None (Some (-1))) Register _
           [mkRegister "ctrl" 1; mkRegister "x" 2; mkRegister "y" 2]
           (registers MultiTargetCSwap) ltac:(by vm_compute)).
Defined.

Lemma omap_lookup_range {A : Type} (l : list A) (lo : Z) (n : nat) :
  0 <= lo → (Z.to_nat lo + n <= length l)%nat →
  omap (fun k => l !! Z.to_nat (lo + Z.of_nat k * 1)) (seq 0 n)
  = take n (drop (Z.to_nat lo) l).
Proof.
  intros Hlo. induction n as [|n IH]; intros Hn; [done|].
  rewrite seq_S, omap_app, IH by lia. simpl.
  replace (Z.to_nat (lo + Z.of_nat n * 1)) with (Z.to_nat lo + n)%nat by lia.
  destruct (lookup_lt_is_Some_2 l (Z.to_nat lo + n)) as [x Hx]; [lia|].
  rewrite Hx. symmetry. apply take_S_r. by rewrite lookup_drop.
Qed.

(** [l[:k]] and [l[k:]] for a position [k] that is not negative. *)
Lemma slice_step_prefix {A : Type} (l : list A) (k : nat) :
  slice_step l None (Some (Z.of_nat k)) None = Ok (take k l).
Proof.
  unfold slice_step, adjust_index. simpl.
  destruct (Z.ltb_spec (Z.of_nat k) 0); [lia|].
  destruct (Z.leb_spec (Z.of_nat (length l)) (Z.of_nat k)) as [Hk|Hk].
  - destruct (Z.ltb_spec 0 (Z.of_nat (length l))) as [Hl|Hl].
    + rewrite Z.div_1_r, omap_lookup_range by lia.
      change (Z.to_nat 0) with 0%nat. rewrite drop_0.
      by rewrite !take_ge by lia.
    + destruct l; [|simpl in Hl; lia]. by rewrite take_nil.
  - destruct (Z.ltb_spec 0 (Z.of_nat k)) as [Hl|Hl].
    + rewrite Z.div_1_r, omap_lookup_range by lia.
      change (Z.to_nat 0) with 0%nat. rewrite drop_0. do 2 f_equal. lia.
    + replace k with 0%nat by lia. done.
Qed.

Lemma slice_step_suffix {A : Type} (l : list A) (k : nat) :
  slice_step l (Some (Z.of_nat k)) None None = Ok (drop k l).
Proof.
  unfold slice_step, adjust_index. simpl.
  destruct (Z.ltb_spec (Z.of_nat k) 0); [lia|].
  destruct (Z.leb_spec (Z.of_nat (length l)) (Z.of_nat k)) as [Hk|Hk].
  - rewrite Z.ltb_irrefl. simpl. by rewrite drop_ge by lia.
  - destruct (Z.ltb_spec (Z.of_nat k) (Z.of_nat (length l))); [|lia].
    rewrite Z.div_1_r, omap_lookup_range by lia.
    rewrite take_ge; [by rewrite Nat2Z.id|].
    rewrite length_drop. lia.
Qed.

Lemma bitsize_take_drop {R : Type} `{RegisterLike R} (regs : list R) (k : nat) :
  (sum_list (bitsize <$> take k regs) + sum_list (bitsize <$> drop k regs)
   = sum_list (bitsize <$> regs))%nat.
Proof.
  rewrite <- (take_drop k regs) at 3. rewrite fmap_app.
  generalize (bitsize <$> take k regs), (bitsize <$> drop k regs).
  intros xs ys. induction xs as [|x xs IH]; simpl; [done|].
  simpl in IH. lia.
Qed.

(** X9: [r[:k]] and [r[k:]] cut a constructed collection into its first
    [k] registers and the rest. Their [bitsize]s add up to [r.bitsize],
    and splitting composes with the cut: the head splits a flat sequence
    as [r] does, and the tail splits what is left after the head's
    [bitsize] handles as [r] does. *)
Theorem split_qubits_of_slices {R : Type} `{RegisterLike R} {Qid : Type}
    (regs : list R) (r : Registers R) (k : nat) :
  Registers_init regs = Ok r →
  let head := registers_of (take k regs) in
  let tail := registers_of (drop k regs) in
  Registers_getitem r (key_slice None (Some (Z.of_nat k)) None)
  = Ok (item_registers head)
  ∧ Registers_getitem r (key_slice (Some (Z.of_nat k)) None None)
    = Ok (item_registers tail)
  ∧ (Registers_bitsize head + Registers_bitsize tail = Registers_bitsize r)%nat
  ∧ ∀ (qs : list Qid) (reg : R),
      (reg ∈ take k regs →
       split_qubits head qs !! name reg = split_qubits r qs !! name reg)
      ∧ (reg ∈ drop k regs →
         split_qubits tail (drop (Registers_bitsize head) qs) !! name reg
         = split_qubits r qs !! name reg).
Proof.
  intros (Hnodup & Hregs & _)%Registers_init_Ok. cbv zeta.
  assert (NoDup (name <$> take k regs)) as Hhead.
  { rewrite fmap_take. eapply sublist_NoDup; [exact Hnodup|apply sublist_take]. }
  assert (NoDup (name <$> drop k regs)) as Htail.
  { rewrite fmap_drop. eapply sublist_NoDup; [exact Hnodup|apply sublist_drop]. }
  split; [|split; [|split]].
  - unfold Registers_getitem. rewrite Hregs, slice_step_prefix. simpl.
    by rewrite Registers_init_spec, bool_decide_eq_true_2.
  - unfold Registers_getitem. rewrite Hregs, slice_step_suffix. simpl.
    by rewrite Registers_init_spec, bool_decide_eq_true_2.
  - rewrite !Registers_bitsize_sum, Hregs. simpl. apply bitsize_take_drop.
  - intros qs reg. unfold split_qubits. rewrite Hregs. simpl. split.
    + intros [i Hi]%list_elem_of_lookup_1.
      pose proof (lookup_lt_Some _ _ _ Hi) as Hlt. rewrite length_take in Hlt.
      rewrite (split_loop_lookup (take k regs) qs ∅ 0 i reg) by done.
      rewrite lookup_take_lt in Hi by lia.
      rewrite (split_loop_lookup regs qs ∅ 0 i reg) by done.
      by rewrite take_take, Nat.min_l by lia.
    + intros [i Hi]%list_elem_of_lookup_1.
      rewrite (split_loop_lookup (drop k regs) _ ∅ 0 i reg) by done.
      rewrite lookup_drop in Hi.
      rewrite (split_loop_lookup regs qs ∅ 0 (k + i) reg) by done.
      rewrite Registers_bitsize_sum. simpl.
      rewrite <- (take_take_drop regs k i), fmap_app.
      assert (∀ xs ys : list nat,
                sum_list (xs ++ ys) = (sum_list xs + sum_list ys)%nat) as Happ.
      { intros xs ys. induction xs as [|x xs IH]; simpl; [done|].
        simpl in IH. lia. }
      rewrite Happ. unfold slice. f_equal.
      rewrite drop_drop. f_equal. lia.
Qed.

Lemma split_qubits_of_slices_witness :
  split_qubits (registers_of [mkRegister "x" 2; mkRegister "y" 2])
    (drop 1 ["c"; "x0"; "x1"; "y0"; "y1"]) !! "y"
  = split_qubits (registers MultiTargetCSwap)
      ["c"; "x0"; "x1"; "y0"; "y1"] !! "y".
Proof.
  destruct (split_qubits_of_slices (Qid := string)
              [mkRegister "ctrl" 1; mkRegister "x" 2; mkRegister "y" 2]
              (registers MultiTargetCSwap) 1 ltac:(by vm_compute))
    as (_ & _ & _ & Hsplit).
  apply (proj2 (Hsplit ["c"; "x0"; "x1"; "y0"; "y1"] (mkRegister "y" 2))).
  apply list_elem_of_further, list_elem_of_here.
Defined.

(** ** Builders *)

(** X10: [Registers.build] called with keyword arguments (distinct names,
    none of them [cls]) never fails: it returns the registers in the order
    of the keywords, and its [bitsize] is the sum of the sizes given. *)
Theorem Registers_build_order (kwargs : list (string * nat)) :
  NoDup kwargs.*1 → "cls" ∉ kwargs.*1 →
  ∃ r : Registers Register,
    Registers_build kwargs = Ok r
    ∧ _registers r = (fun kv => mkRegister kv.1 kv.2) <$> kwargs
    ∧ Registers_bitsize r = sum_list kwargs.*2.
Proof.
  intros Hnodup Hcls. unfold Registers_build, keywords.
  rewrite decide_True by done. simpl.
  rewrite Registers_init_spec, bool_decide_eq_true_2.
  - eexists. split; [done|]. split; [done|].
    rewrite Registers_bitsize_sum. simpl. f_equal.
    rewrite <- list_fmap_compose. by apply list_fmap_ext.
  - rewrite <- list_fmap_compose.
    by rewrite (list_fmap_ext _ fst kwargs) by done.
Qed.

Lemma Registers_build_order_witness :
  ∃ r : Registers Register,
    Registers_build cswap_keywords = Ok r
    ∧ _registers r = (fun kv => mkRegister kv.1 kv.2) <$> cswap_keywords
    ∧ Registers_bitsize r = sum_list cswap_keywords.*2.
Proof.
  apply Registers_build_order.
  - apply (bool_decide_unpack _). by vm_compute.
  - apply (bool_decide_unpack _). by vm_compute.
Defined.

Lemma new_selection_registers_spec (reg_dict : list (string * (nat * Z))) :
  new_selection_registers reg_dict
  = if decide (Forall valid_pair reg_dict)
    then Ok ((fun kv => mkSelectionRegister kv.1 kv.2.1 kv.2.2) <$> reg_dict)
    else Raise ValueError.
Proof.
  induction reg_dict as [|kv rest IH].
  - destruct (decide (Forall valid_pair [])) as [_|Hnil]; [done|].
    destruct Hnil. constructor.
  - simpl. rewrite SelectionRegister_new_spec, IH.
    destruct (decide (Forall valid_pair rest)) as [Hrest|Hrest];
      destruct (decide (Forall valid_pair (kv :: rest))) as [Hall|Hall];
      case_bool_decide as Hkv; simpl; try done;
      try (by destruct Hall; constructor);
      by apply Forall_cons in Hall as [? ?].
Qed.

(** X11: [SelectionRegisters.build] called with keyword arguments
    (distinct names, none of them [cls]) raises [ValueError] exactly when
    some pair gives an iteration length outside [0, 2^size]; otherwise it
    returns the registers in the order of the keywords, a plain size [v]
    standing for the full range [2^v], which the validator always
    accepts. *)
Theorem SelectionRegisters_build_outcome (kwargs : list (string * size_arg)) :
  NoDup kwargs.*1 → "cls" ∉ kwargs.*1 →
  (∀ (k : string) (v : nat), valid_pair (k, size_pair (size_only v)))
  ∧ if decide (Forall (fun kv => valid_pair (kv.1, size_pair kv.2)) kwargs)
    then ∃ self : SelectionRegisters,
           SelectionRegisters_build kwargs = Ok self
           ∧ _registers (super self)
             = (fun kv => mkSelectionRegister kv.1 (size_pair kv.2).1
                            (size_pair kv.2).2) <$> kwargs
           ∧ iteration_lengths self = (fun kv => (size_pair kv.2).2) <$> kwargs
    else SelectionRegisters_build kwargs = Raise ValueError.
Proof.
  intros Hnodup Hcls. split.
  { intros k v. unfold valid_pair. simpl.
    split; [apply Z.pow_nonneg|]; lia. }
  unfold SelectionRegisters_build, keywords.
  rewrite (decide_True (P := NoDup kwargs.*1 ∧ "cls" ∉ kwargs.*1)) by done.
  simpl. rewrite new_selection_registers_spec.
  destruct (decide (Forall (fun kv => valid_pair (kv.1, size_pair kv.2)) kwargs))
    as [Hall|Hall].
  - rewrite decide_True by (apply Forall_fmap; exact Hall).
    simpl. rewrite SelectionRegisters_init_spec, bool_decide_eq_true_2.
    + simpl. eexists. split; [done|]. simpl.
      rewrite <- !list_fmap_compose. done.
    + rewrite <- !list_fmap_compose.
      by rewrite (list_fmap_ext _ fst kwargs) by done.
  - rewrite decide_False; [done|]. intros Hall'. apply Hall.
    rewrite Forall_fmap in Hall'. exact Hall'.
Qed.

Lemma SelectionRegisters_build_outcome_witness :
  ∃ self : SelectionRegisters,
    SelectionRegisters_build selection_keywords = Ok self
    ∧ iteration_lengths self = [8; 10].
Proof.
  destruct (SelectionRegisters_build_outcome selection_keywords)
    as [_ Hbuild].
  - apply (bool_decide_unpack _). by vm_compute.
  - apply (bool_decide_unpack _). by vm_compute.
  - rewrite decide_True in Hbuild.
    + destruct Hbuild as (self & Hself & _ & Hlens). by exists self.
    + repeat constructor; unfold valid_pair; simpl; lia.
Defined.

(** ** The suffix table always has one entry more than there are registers *)


















(** ** The flat index, in and out of the 64-bit range *)

(** X13: with iteration lengths below [2^63], the arithmetic of
    [SelectionRegisters] is arithmetic modulo [2^64]: [total_iteration_size]
    is the product of the lengths, and [to_flat_idx] the row-major index of
    its values, both reduced to a signed 64-bit integer. *)
Theorem selection_arithmetic_modulo_2_64 (regs : list SelectionRegister)
    (self : SelectionRegisters) :
  SelectionRegisters_init regs = Ok self →
  regs ≠ [] →
  Forall (fun reg => 0 <= iteration_length reg < 2 ^ 63) regs →
  total_iteration_size self
  = Ok (py_int (np.wrap64 (product_of (iteration_length <$> regs))))
  ∧ ∀ vals : list Z,
      length vals = length regs →
      Forall (fun v => - 2 ^ 63 <= v < 2 ^ 63) vals →
      to_flat_idx self vals
      = Ok (np_int64 (np.wrap64 (row_major (iteration_length <$> regs) vals))).
Proof.
  intros Hinit Hne Hlens. split.
  - by apply total_iteration_size_int64.
  - intros vals Hlen Hvals. by apply to_flat_idx_int64.
Qed.

Lemma selection_arithmetic_modulo_2_64_witness :
  ∃ self : SelectionRegisters,
    SelectionRegisters_init wide_selection = Ok self
    ∧ total_iteration_size self = Ok (py_int (np.wrap64 (2 ^ 65)))
    ∧ to_flat_idx self [1; 1; 5] = Ok (np_int64 (np.wrap64 (2 ^ 64 + 2 ^ 32 + 5))).
Proof.
  eexists. split; [by vm_compute|].
  destruct (selection_arithmetic_modulo_2_64 wide_selection _ eq_refl)
    as [Htotal Hflat].
  - discriminate.
  - repeat constructor; simpl; lia.
  - split; [exact Htotal|]. apply (Hflat [1; 1; 5]); [done|].
    repeat constructor; lia.
Defined.

Lemma row_major_inj (lens vals1 vals2 : list Z) :
  Forall2 (fun v l => 0 <= v < l) vals1 lens →
  Forall2 (fun v l => 0 <= v < l) vals2 lens →
  row_major lens vals1 = row_major lens vals2 →
  vals1 = vals2.
Proof.
  intros Hvals1. revert vals2.
  induction Hvals1 as [|v1 l vals1 lens Hv1 Hvals1 IH]; intros vals2 Hvals2 Heq.
  - by apply Forall2_nil_inv_r in Hvals2.
  - apply Forall2_cons_inv_r in Hvals2
      as (v2 & rest2 & Hv2 & Hrest2 & ->).
    pose proof (row_major_bounds _ _ Hvals1) as Hb1.
    pose proof (row_major_bounds _ _ Hrest2) as Hb2.
    simpl in Heq.
    assert (v1 = v2) as -> by nia.
    f_equal. apply IH; [done|lia].
Qed.

Lemma in_range_lengths (lens vals : list Z) :
  Forall2 (fun v l => 0 <= v < l) vals lens →
  product_of lens < 2 ^ 63 →
  Forall (fun l => 0 <= l < 2 ^ 63) lens.
Proof.
  intros Hvals Hprod.
  assert (Forall (fun l => 1 <= l) lens) as Hpos.
  { eapply Forall2_Forall_r; [exact Hvals|].
    apply Forall_true. intros v l. lia. }
  apply Forall_forall. intros l Hl.
  pose proof (factor_le_product lens l Hpos Hl).
  rewrite Forall_forall in Hpos. specialize (Hpos l Hl). lia.
Qed.

(** X14: while the product of the iteration lengths is below [2^63], the
    flat index of values inside their ranges is the row-major index
    itself, and it is a position below [total_iteration_size]: it can
    address a flat target of that many entries. *)
Theorem flat_index_below_total (regs : list SelectionRegister)
    (self : SelectionRegisters) (vals : list Z) :
  SelectionRegisters_init regs = Ok self →
  product_of (iteration_length <$> regs) < 2 ^ 63 →
  Forall2 (fun v l => 0 <= v < l) vals (iteration_length <$> regs) →
  ∃ total : Z,
    total_iteration_size self = Ok (py_int total)
    ∧ total = product_of (iteration_length <$> regs)
    ∧ flat_value self vals = Some (row_major (iteration_length <$> regs) vals)
    ∧ 0 <= row_major (iteration_length <$> regs) vals < total.
Proof.
  intros Hinit Hprod Hvals. eexists. split; [|split; [done|split]].
  - apply (total_iteration_size_exact regs); [done| |done].
    pose proof (in_range_lengths _ _ Hvals Hprod) as Hlens.
    rewrite Forall_fmap in Hlens. exact Hlens.
  - by apply to_flat_idx_row_major.
  - by apply row_major_bounds.
Qed.

Lemma flat_index_below_total_witness :
  ∃ (self : SelectionRegisters) (total : Z),
    SelectionRegisters_init xy_selection = Ok self
    ∧ total_iteration_size self = Ok (py_int total)
    ∧ total = 200
    ∧ flat_value self [9; 19] = Some 199.
Proof.
  eexists.
  destruct (flat_index_below_total xy_selection _ [9; 19] eq_refl)
    as (total & Htotal & -> & Hflat & _).
  - by vm_compute.
  - repeat constructor; lia.
  - eexists. split; [reflexivity|]. split; [exact Htotal|].
    split; [reflexivity|exact Hflat].
Defined.

(** X15: while the product of the iteration lengths is below [2^63],
    [to_flat_idx] sends different tuples of values inside their ranges to
    different flat indices. *)
Theorem to_flat_idx_injective (regs : list SelectionRegister)
    (self : SelectionRegisters) (vals1 vals2 : list Z) :
  SelectionRegisters_init regs = Ok self →
  product_of (iteration_length <$> regs) < 2 ^ 63 →
  Forall2 (fun v l => 0 <= v < l) vals1 (iteration_length <$> regs) →
  Forall2 (fun v l => 0 <= v < l) vals2 (iteration_length <$> regs) →
  vals1 ≠ vals2 →
  flat_value self vals1 ≠ flat_value self vals2.
Proof.
  intros Hinit Hprod Hvals1 Hvals2 Hne.
  rewrite !(to_flat_idx_row_major regs) by done.
  intros [= Heq]. apply Hne. by eapply row_major_inj.
Qed.

Lemma to_flat_idx_injective_witness :
  ∃ self : SelectionRegisters,
    SelectionRegisters_init xy_selection = Ok self
    ∧ flat_value self [3; 7] ≠ flat_value self [7; 3].
Proof.
  eexists. split; [by vm_compute|].
  apply (to_flat_idx_injective xy_selection); [done|by vm_compute| | |done];
    repeat constructor; lia.
Defined.

(** X16: while the product of the iteration lengths is below [2^63], the
    [k]-th tuple of the nested loops over the iteration ranges, in
    lexicographic order, has flat index [k], and there are as many tuples
    as the product of the lengths. *)
Theorem kth_tuple_has_index_k (regs : list SelectionRegister)
    (self : SelectionRegisters) :
  SelectionRegisters_init regs = Ok self →
  Forall is_SelectionRegister regs →
  product_of (iteration_length <$> regs) < 2 ^ 63 →
  Z.of_nat (length (index_tuples (iteration_length <$> regs)))
  = product_of (iteration_length <$> regs)
  ∧ ∀ (k : nat) (vals : list Z),
      index_tuples (iteration_length <$> regs) !! k = Some vals →
      flat_value self vals = Some (Z.of_nat k).
Proof.
  intros Hinit Hvalid Hprod.
  pose proof (to_flat_idx_enumerates regs self Hinit Hvalid Hprod) as Henum.
  assert (0 <= product_of (iteration_length <$> regs)) as Hnonneg.
  { apply product_of_nonneg, Forall_fmap.
    eapply Forall_impl; [exact Hvalid|].
    intros reg Hreg%is_SelectionRegister_range. simpl. lia. }
  split.
  - apply (f_equal length) in Henum.
    rewrite !length_fmap, length_seqZ in Henum. lia.
  - intros k vals Hk.
    apply (f_equal (fun l => l !! k)) in Henum.
    rewrite !list_lookup_fmap, Hk in Henum. simpl in Henum.
    destruct (seqZ 0 (product_of (iteration_length <$> regs)) !! k)
      as [z|] eqn:Hz; [|done].
    apply lookup_seqZ in Hz as [-> _]. simpl in Henum.
    by injection Henum as ->.
Qed.

Lemma kth_tuple_has_index_k_witness :
  ∃ self : SelectionRegisters,
    SelectionRegisters_init xy_selection = Ok self
    ∧ flat_value self [3; 7] = Some 67.
Proof.
  eexists. split; [by vm_compute|].
  apply (proj2 (kth_tuple_has_index_k xy_selection _ eq_refl
                  ltac:(by repeat constructor) ltac:(by vm_compute)) 67%nat).
  by vm_compute.
Defined.

Lemma product_of_powers (sizes : list nat) :
  product_of ((fun v => 2 ^ Z.of_nat v) <$> sizes)
  = 2 ^ Z.of_nat (sum_list sizes).
Proof.
  unfold product_of. induction sizes as [|v sizes IH]; [done|].
  rewrite fmap_cons. simpl foldr. rewrite IH.
  change (sum_list (v :: sizes)) with (v + sum_list sizes)%nat.
  rewrite Nat2Z.inj_add, Z.pow_add_r by lia. done.
Qed.

(** X17: [SelectionRegisters.build] with plain sizes makes registers that
    range over all their bit patterns: as long as the sizes add up to at
    most 62 bits, [total_iteration_size] is [2^bitsize]. *)
Theorem full_range_total (sizes : list (string * nat)) :
  NoDup sizes.*1 → "cls" ∉ sizes.*1 →
  (sum_list sizes.*2 < 63)%nat →
  ∃ self : SelectionRegisters,
    SelectionRegisters_build ((fun kv => (kv.1, size_only kv.2)) <$> sizes)
    = Ok self
    ∧ Registers_bitsize (super self) = sum_list sizes.*2
    ∧ total_iteration_size self
      = Ok (py_int (2 ^ Z.of_nat (Registers_bitsize (super self)))).
Proof.
  intros Hnodup Hcls Hsum.
  set (kwargs := (fun kv : string * nat => (kv.1, size_only kv.2)) <$> sizes).
  assert (kwargs.*1 = sizes.*1) as Hkeys.
  { subst kwargs. rewrite <- list_fmap_compose. by apply list_fmap_ext. }
  assert (SelectionRegisters_build kwargs
          = SelectionRegisters_init
              ((fun kv => mkSelectionRegister kv.1 kv.2 (2 ^ Z.of_nat kv.2))
                 <$> sizes)) as Hbuild.
  { unfold SelectionRegisters_build, keywords.
    rewrite decide_True by by rewrite Hkeys. simpl.
    rewrite new_selection_registers_spec, decide_True.
    - simpl. f_equal. subst kwargs. by rewrite <- !list_fmap_compose.
    - subst kwargs. rewrite <- list_fmap_compose. apply Forall_fmap.
      apply Forall_true. intros kv. unfold valid_pair. simpl.
      split; [apply Z.pow_nonneg|]; lia. }
  rewrite Hbuild. clear Hbuild Hkeys kwargs.
  set (regs := (fun kv : string * nat =>
                  mkSelectionRegister kv.1 kv.2 (2 ^ Z.of_nat kv.2)) <$> sizes).
  assert (NoDup (name <$> regs)) as Hnames.
  { subst regs. rewrite <- list_fmap_compose.
    by rewrite (list_fmap_ext _ fst sizes) by done. }
  assert (bitsize <$> regs = sizes.*2) as Hsizes.
  { subst regs. rewrite <- list_fmap_compose. by apply list_fmap_ext. }
  assert (iteration_length <$> regs
          = (fun v => 2 ^ Z.of_nat v) <$> sizes.*2) as Hlens.
  { subst regs. by rewrite <- !list_fmap_compose. }
  destruct (SelectionRegisters_init regs) as [self|e|] eqn:Hinit.
  - exists self. split; [done|].
    assert (Registers_bitsize (super self) = sum_list sizes.*2) as Hbits.
    { apply SelectionRegisters_init_Ok in Hinit as (_ & Hregs & _).
      by rewrite Registers_bitsize_sum, Hregs, Hsizes. }
    split; [done|]. rewrite Hbits, <- product_of_powers, <- Hlens.
    apply (total_iteration_size_exact regs); [done| |].
    + assert (Forall (fun l => 0 <= l < 2 ^ 63) (iteration_length <$> regs))
        as Hfit; [|rewrite Forall_fmap in Hfit; exact Hfit].
      rewrite Hlens. apply Forall_fmap, Forall_forall.
      intros v Hv. simpl.
      assert (v <= sum_list sizes.*2)%nat
        by exact (sum_list_with_in v id _ Hv).
      split; [apply Z.pow_nonneg; lia|].
      apply Z.pow_lt_mono_r; lia.
    + rewrite Hlens, product_of_powers. apply Z.pow_lt_mono_r; lia.
  - by rewrite SelectionRegisters_init_spec, bool_decide_eq_true_2 in Hinit.
  - by rewrite SelectionRegisters_init_spec, bool_decide_eq_true_2 in Hinit.
Qed.

Lemma full_range_total_witness :
  ∃ self : SelectionRegisters,
    SelectionRegisters_build
      ((fun kv => (kv.1, size_only kv.2)) <$> cswap_keywords)
    = Ok self
    ∧ Registers_bitsize (super self) = sum_list cswap_keywords.*2
    ∧ total_iteration_size self
      = Ok (py_int (2 ^ Z.of_nat (Registers_bitsize (super self)))).
Proof.
  apply full_range_total.
  - apply (bool_decide_unpack _). by vm_compute.
  - apply (bool_decide_unpack _). by vm_compute.
  - vm_compute. lia.
Defined.
